(** * node-buspirate: the protocol engine of [lib/buspirate.js] and [lib/uart.js]

    A shallow embedding of the Bus Pirate bindings.  The session object
    ([BusPirate] and its [Uart] driver) is a record, the promise chains of
    the operations are trees of suspension points ([prom]), and the Node
    event loop is a step function over events: a user call, an inbound
    chunk, the callback of a [port.write], a timer.

    Conventions.
    - Numbers are integers ([Z]); the 32-bit wrap-around of the JavaScript
      bit operators is written out in [int32].
    - Strings are ASCII, one byte per character, so the length of a string
      is also its length in bytes.
    - One event is one turn of the event loop: the continuations resumed by
      the event run up to their next suspension point before the next event
      is taken.
    - [this.log] and [console.log] only print and are left out.
    - Line numbers are those of [src/lib/buspirate.js], which holds
      [buspirate.js] followed by [uart.js].  The [Spi] driver ([lib/spi.js])
      is not among the sources and is left out.
    - Of the callback version of the engine in [src/index.js] the
      configuration byte and the waiter closure are embedded, in a part of
      their own. *)

From Stdlib Require Import ZArith Lia.
From Stdlib.Strings Require Import Byte Ascii.
From stdpp Require Import base list strings gmap.

#[global] Instance byte_eqdec : EqDecision byte := Byte.byte_eq_dec.

(** ** Bytes and buffers *)

(** Storing a number into a [Buffer] keeps its low eight bits. *)
Definition byte_of_Z (z : Z) : byte :=
  default x00 (Byte.of_N (Z.to_N (z mod 256))).

(** The bytes of an ASCII string. *)
Definition bytes : string → list byte := String.list_byte_of_string.

(** A [RegExp] object is represented by its [exec] method on the decoded
    text: the matched substring [m[0]] of the first match, if any. *)
Record RegExp := { exec : list byte → option (list byte) }.

(** First occurrence of a literal: the regular expression [/lit/]. *)
Fixpoint search (lit text : list byte) : option (list byte) :=
  if bool_decide (take (length lit) text = lit) then Some lit
  else match text with
       | [] => None
       | _ :: text' => search lit text'
       end.

Definition literal (lit : list byte) : RegExp := {| exec := search lit |}.

(** What [expect] may be given: the documented string or array, a single
    number (as in [expect(0x1)]), or a [RegExp]. *)
Inductive expected :=
| ENum (n : Z)
| EStr (s : string)
| EArr (l : list Z)
| ERegExp (r : RegExp).

(** [expect], lines 279-284: [new Buffer(data)] for a string or an array,
    [new Buffer([data])] for anything else.  A [RegExp] inside an array is
    not a number and is stored as the byte 0. *)
Definition Buffer_from (data : expected) : list byte :=
  match data with
  | EStr s => bytes s
  | EArr l => byte_of_Z <$> l
  | ENum n => [byte_of_Z n]
  | ERegExp _ => [x00]
  end.

(** ** The waiter closure of [expect] (lines 291-327) *)

(** The variable [data] captured by the closure. *)
Inductive captured :=
| CBuffer (b : list byte)
| CRegExp (r : RegExp).

(** What one call of a waiter does. *)
Inductive verdict :=
| Keep (buf : list byte)                  (* return data_received *)
| Found (v : list byte) (buf : list byte) (* arr.splice(idx, 1); resolve(v); return buf *)
| Undefined.                              (* no return statement reached *)

(** The comparison loop of lines 313-317, [i] running from [n - 1] down to
    0; [true] when some position differs. *)
Fixpoint differs (n : nat) (data data_received : list byte) : bool :=
  match n with
  | 0 => false
  | S i =>
      if bool_decide (data !! i = data_received !! i)
      then differs i data data_received
      else true
  end.

Definition waiter (data : captured) (data_received : list byte) : verdict :=
  match data with
  | CRegExp r =>
      match exec r data_received with
      | Some m0 => Found m0 (drop (length m0) data_received)
      | None => Undefined
      end
  | CBuffer data =>
      if length data_received <? length data then Keep data_received
      else if length data =? 0
      then Found data_received (drop (length data_received) data_received)
      else if differs (length data) data data_received then Keep data_received
      else Found data (drop (length data) data_received)
  end.

(** ** Numbers *)

(** The operands and the result of [|] and [<<] are 32-bit signed. *)
Definition int32 (z : Z) : Z := ((z + 2 ^ 31) mod 2 ^ 32 - 2 ^ 31)%Z.
Definition bor (a b : Z) : Z := int32 (Z.lor (int32 a) (int32 b)).
Definition shl (a n : Z) : Z := int32 (Z.shiftl (int32 a) (Z.land n 31)).

(** ** Values, notifications and promise chains *)

Inductive value :=
| VUndefined
| VBool (b : bool)
| VString (s : string)
| VBuffer (b : list byte)
| VError (message : string).

(** How a call ended: its promise was fulfilled or rejected, or the call
    returned a plain value and no promise at all. *)
Inductive outcome :=
| Fulfilled (v : value)
| Rejected (e : value)
| Returned (v : value).

(** What [BusPirate.prototype.write] may be given. *)
Inductive outdata :=
| ONum (n : Z)
| OStr (s : string)
| OArr (l : list Z)
| OBuf (b : list byte).

Record uart_settings := {
  s_baudrate : Z;
  s_pin_output : Z;
  s_data_bits : Z;
  s_parity_bit : string;
  s_stop_bits : Z;
  s_idle_polarity : Z
}.

(** Events emitted on the [BusPirate] object and on its [Uart]. *)
Inductive notif :=
| NReceive (data : list byte)
| NMode (m : string)
| NPeripherals (code : Z)
| NError (err : value)
| NUartData (data : list byte)
| NReady
| NRxEcho (on : bool)
| NUartBridge.

(** The plain fields that the operations read and assign: [bp.mode],
    [uart.started], [uart.echo_rx_on], [uart.settings] ([None] is [{}]). *)
Record props := {
  mode : string;
  started : bool;
  echo_rx_on : bool;
  settings : option uart_settings
}.

Definition set_mode (m : string) (p : props) : props :=
  {| mode := m; started := started p; echo_rx_on := echo_rx_on p; settings := settings p |}.
Definition set_started (b : bool) (p : props) : props :=
  {| mode := mode p; started := b; echo_rx_on := echo_rx_on p; settings := settings p |}.
Definition set_echo_rx_on (b : bool) (p : props) : props :=
  {| mode := mode p; started := started p; echo_rx_on := b; settings := settings p |}.
Definition set_settings (s : uart_settings) (p : props) : props :=
  {| mode := mode p; started := started p; echo_rx_on := echo_rx_on p; settings := Some s |}.

(** A promise chain, as the tree of its suspension points.  The functions
    are the [then] callbacks; [PortWrite] passes the [err] argument of the
    [port.write] callback, [Expect] the bytes its waiter resolved with.
    [ProbeInterval] is the interval timer of [enter_binmode] (lines 138-152):
    [reject] is what follows the rejection of [p1], [k] receives the timer
    id. *)
Inductive prom :=
| Resolve (v : value)
| Reject (e : value)
| PortWrite (tx : outdata) (k : option value → prom)
| Expect (data : expected) (k : list byte → prom)
| SetTimeout (k : prom)
| ProbeInterval (reject : value → prom) (k : nat → prom)
| ClearInterval (tid : nat) (k : prom)
| Get (k : props → prom)
| Put (f : props → props) (k : prom)
| Emit (n : notif) (k : prom).

(** [p.then(f)] *)
Fixpoint bind (p : prom) (f : value → prom) : prom :=
  match p with
  | Resolve v => f v
  | Reject e => Reject e
  | PortWrite tx k => PortWrite tx (λ err, bind (k err) f)
  | Expect data k => Expect data (λ d, bind (k d) f)
  | SetTimeout k => SetTimeout (bind k f)
  | ProbeInterval reject k => ProbeInterval (λ e, bind (reject e) f) (λ tid, bind (k tid) f)
  | ClearInterval tid k => ClearInterval tid (bind k f)
  | Get k => Get (λ this, bind (k this) f)
  | Put g k => Put g (bind k f)
  | Emit n k => Emit n (bind k f)
  end.

(** [p.catch(h)] *)
Fixpoint catch (p : prom) (h : value → prom) : prom :=
  match p with
  | Resolve v => Resolve v
  | Reject e => h e
  | PortWrite tx k => PortWrite tx (λ err, catch (k err) h)
  | Expect data k => Expect data (λ d, catch (k d) h)
  | SetTimeout k => SetTimeout (catch k h)
  | ProbeInterval reject k => ProbeInterval (λ e, catch (reject e) h) (λ tid, catch (k tid) h)
  | ClearInterval tid k => ClearInterval tid (catch k h)
  | Get k => Get (λ this, catch (k this) h)
  | Put g k => Put g (catch k h)
  | Emit n k => Emit n (catch k h)
  end.

(** What a function returns: a promise or a plain value.  A [then]
    callback that returns a plain value fulfils the chain with it. *)
Inductive returned :=
| Promise (p : prom)
| Plain (v : value).

Definition then_return (r : returned) : prom :=
  match r with
  | Promise p => p
  | Plain v => Resolve v
  end.

(** ** The operations of [lib/buspirate.js] *)

(** [write], lines 249-271: a number is wrapped into a one-element array;
    the promise is settled by the callback of [port.write]. *)
Definition tx_of (data : outdata) : outdata :=
  match data with
  | ONum n => OArr [n]
  | _ => data
  end.

Definition written_cb (err : option value) : prom :=
  match err with
  | Some e => Reject e
  | None => Resolve (VBool true)
  end.

Definition write (data : outdata) : prom := PortWrite (tx_of data) written_cb.

(** [expect], lines 277-329: the promise resolves with what the waiter
    passes to [resolve]; nothing ever rejects it. *)
Definition expect (data : expected) : prom :=
  Expect data (λ d, Resolve (VBuffer d)).

(** [reset_console], lines 111-126. *)
Definition reset_console : prom :=
  bind (write (OArr [0x0d; 0x0d; 0x0d; 0x0d; 0x0d; 0x0d; 0x0d; 0x0d; 0x0d; 0x0d; 0x23]%Z))
       (λ _, SetTimeout (Resolve (VBool true))).

(** [enter_binmode], lines 131-166.  [Promise.race([p1, p2])]: [p1] is the
    interval timer, whose callback is [tick] below, [p2] the waiter for
    ["BBIO1"] followed by its [then] callback.  Either one ends the other
    ([clearInterval(tid)], [this.waiters = []]), so the chain goes on from
    exactly one of them. *)
Definition enter_binmode : prom :=
  Get (λ this,
    if String.eqb (mode this) "binmode" || String.eqb (mode this) "uart_bridge"
    then Resolve VUndefined
    else
      ProbeInterval (λ e, Reject e) (λ tid,
        bind (expect (EStr "BBIO1")) (λ _,
          ClearInterval tid
            (Put (set_mode "binmode")
              (Emit (NMode "binmode")
                (Resolve (VBool true))))))).

(** The constants a mode module passes to [switch_mode]. *)
Record constants := {
  MODE_ID : Z;
  MODE_NAME : string;
  MODE_ACK : string
}.

(** [switch_mode], lines 174-197. *)
Definition switch_mode (newmode : constants) : prom :=
  Get (λ this,
    if String.eqb (mode this) "uart_bridge" then Resolve (VString "uart_bridge")
    else
      let p :=
        if negb (String.eqb (mode this) "binmode")
        then bind reset_console (λ _, enter_binmode)
        else Resolve VUndefined in
      bind (bind (bind p
        (λ _, write (ONum (MODE_ID newmode))))
        (λ _, expect (EStr (MODE_ACK newmode))))
        (λ _, Put (set_mode (MODE_NAME newmode))
               (Emit (NMode (MODE_NAME newmode))
                 (Resolve (VString (MODE_NAME newmode)))))).

(** [config_periph], lines 203-239.  [opts] is the caller's object;
    [Object.assign] lets its keys override the defaults. *)
Definition periph_defaults : gmap string bool :=
  list_to_map [("power", false); ("pullups", false); ("aux", false);
               ("mosi", false); ("clk", false); ("miso", false); ("cs", false)].

Definition flag (o : gmap string bool) (key : string) : Z :=
  Z.b2z (default false (o !! key)).

Definition config_code (opts : gmap string bool) : Z :=
  let o := opts ∪ periph_defaults in
  bor (bor (bor (bor (bor (bor (bor 0x80
    (shl (flag o "power") 6))
    (shl (flag o "pullups") 5))
    (shl (flag o "aux") 4))
    (shl (flag o "mosi") 3))
    (Z.b2z (flag o "clk" <? 2)%Z))
    (shl (flag o "miso") 1))
    (flag o "cs").

Definition config_periph (opts : gmap string bool) : prom :=
  let code := config_code opts in
  catch
    (bind (bind (write (ONum code))
      (λ _, expect (ENum 0x1)))
      (λ _, Emit (NPeripherals code) (Resolve VUndefined)))
    (λ err, Resolve VUndefined).

(** [format], lines 346-365, the branch for a string item (lines 358-362):
    every character of the class [[\x00-\x1A\x1C-\x1F\x7F-\x9F]] is
    replaced by a dot; [0x1B] is let through for the colour escape
    sequences. *)
Definition is_control (c : Ascii.ascii) : bool :=
  let n := Ascii.nat_of_ascii c in
  (n <=? 0x1A) || ((0x1C <=? n) && (n <=? 0x1F)) || ((0x7F <=? n) && (n <=? 0x9F)).

Fixpoint format (item : string) : string :=
  match item with
  | EmptyString => EmptyString
  | String c rest => String (if is_control c then "."%char else c) (format rest)
  end.

(** ** The operations of [lib/uart.js] *)

Definition uart_constants : constants :=
  {| MODE_ID := 0x03; MODE_NAME := "uart"; MODE_ACK := "ART1" |}.

(** The caller's options object; [None] is a missing key. *)
Record uart_options := {
  baudrate : option Z;
  pin_output : option Z;
  data_bits : option Z;
  parity_bit : option string;
  stop_bits : option Z;
  idle_polarity : option Z
}.

Definition uart_defaults : uart_settings :=
  {| s_baudrate := 9600; s_pin_output := 1; s_data_bits := 8;
     s_parity_bit := "N"; s_stop_bits := 1; s_idle_polarity := 1 |}.

(** [options[opt] || uart_defaults[opt]]: 0 and the empty string are falsy. *)
Definition or_num (o : option Z) (d : Z) : Z :=
  match o with
  | Some z => if (z =? 0)%Z then d else z
  | None => d
  end.

Definition or_str (o : option string) (d : string) : string :=
  match o with
  | Some s => if String.eqb s "" then d else s
  | None => d
  end.

Definition parse_options (options : uart_options) : uart_settings :=
  {| s_baudrate := or_num (baudrate options) (s_baudrate uart_defaults);
     s_pin_output := or_num (pin_output options) (s_pin_output uart_defaults);
     s_data_bits := or_num (data_bits options) (s_data_bits uart_defaults);
     s_parity_bit := or_str (parity_bit options) (s_parity_bit uart_defaults);
     s_stop_bits := or_num (stop_bits options) (s_stop_bits uart_defaults);
     s_idle_polarity := or_num (idle_polarity options) (s_idle_polarity uart_defaults) |}.

Definition bauds : gmap Z Z :=
  list_to_map [(300, 0x60); (1200, 0x61); (2400, 0x62); (4800, 0x63);
               (9600, 0x64); (19200, 0x65); (31250, 0x66); (38400, 0x67);
               (57600, 0x68); (115200, 0x69)]%Z.

(** [bauds[opts.baudrate] || bauds[uart_defaults.baudrate]] *)
Definition baudcmd (opts : uart_settings) : Z :=
  default (default 0%Z (bauds !! s_baudrate uart_defaults)) (bauds !! s_baudrate opts).

(** ["NEO".indexOf(parity)] *)
Definition indexOf (s sub : string) : Z :=
  match String.index 0 sub s with
  | Some i => Z.of_nat i
  | None => (-1)%Z
  end.

Definition uart_config (opts : uart_settings) : Z :=
  let w := shl (s_pin_output opts) 4 in
  let xx := shl (if (s_data_bits opts =? 9)%Z then 3%Z
                 else indexOf "NEO" (s_parity_bit opts)) 2 in
  let y := shl (if (s_stop_bits opts =? 2)%Z then 1 else 0)%Z 1 in
  let z := if (s_idle_polarity opts =? 0)%Z then 1%Z else 0%Z in
  bor (bor (bor (bor 0x80 w) xx) y) z.

(** [setopts], lines 454-504, from "Parse options" on: the part that runs
    once the driver is started.  (The [catch] emits ['error'] on the
    [BusPirate]; a listener for it is taken to be installed.) *)
Definition setopts_started (options : uart_options) : prom :=
  let opts := parse_options options in
  Put (set_settings opts)
    (catch
      (bind (bind (bind (bind (write (ONum (baudcmd opts)))
        (λ _, expect (ENum 0x01)))
        (λ _, write (ONum (uart_config opts))))
        (λ _, expect (ENum 0x1)))
        (λ _, Emit NReady (Resolve (VBool true))))
      (λ err, Emit (NError err) (Resolve VUndefined))).

(** [start], lines 418-435.  The call [this.setopts(options)] comes right
    after [this.started = true], so the test [!this.started] at the head of
    [setopts] fails there and [setopts] goes on with [setopts_started]
    ([start_calls_setopts] below). *)
Definition start (options : uart_options) : prom :=
  catch
    (bind (switch_mode uart_constants) (λ mode,
      match mode with
      | VString m =>
          if String.eqb m (MODE_NAME uart_constants)
          then Put (set_started true) (setopts_started options)
          else if String.eqb m "uart_bridge"
          then Put (set_started true) (Emit NReady (Resolve (VBool true)))
          else Resolve (VBool false)
      | _ => Resolve (VBool false)
      end))
    (λ err, Resolve VUndefined).

Definition setopts (options : uart_options) : prom :=
  Get (λ this,
    if negb (started this) then start options
    else setopts_started options).

(** [echo_rx], lines 513-528. *)
Definition echo_rx (on : bool) : prom :=
  let code := if on then 0x02%Z else 0x03%Z in
  Get (λ this,
    if String.eqb (mode this) "uart_bridge" then Resolve (VBool true)
    else
      bind (bind (write (ONum code))
        (λ _, expect (ENum 0x01)))
        (λ _, Put (set_echo_rx_on on) (Emit (NRxEcho on) (Resolve (VBool true))))).

(** [uart_bridge], lines 534-546. *)
Definition uart_bridge : prom :=
  Get (λ this,
    if String.eqb (mode this) "uart_bridge" then Resolve (VBool true)
    else
      bind (write (ONum 0x0f))
        (λ _, Put (set_mode "uart_bridge") (Emit NUartBridge (Resolve (VBool true))))).

(** What [write_block] may be given: something with a [length]. *)
Inductive block :=
| BStr (s : string)
| BArr (l : list Z)
| BBuf (b : list byte).

Definition block_length (buffer : block) : nat :=
  match buffer with
  | BStr s => String.length s
  | BArr l => length l
  | BBuf b => length b
  end.

Definition block_data (buffer : block) : outdata :=
  match buffer with
  | BStr s => OStr s
  | BArr l => OArr l
  | BBuf b => OBuf b
  end.

(** The loop of lines 565-567: one [0x01] pushed per byte of the block. *)
Fixpoint acks (n : nat) (test : list Z) : list Z :=
  match n with
  | 0 => test
  | S i => acks i (test ++ [0x01%Z])
  end.

(** [write_block], lines 552-573.  The two guards [return new Error(...)]:
    the caller gets the error object as the value of the call. *)
Definition write_block (buffer : block) (this : props) : returned :=
  let lenbyte := (0x10 + Z.of_nat (block_length buffer) - 1)%Z in
  if 16 <? block_length buffer
  then Plain (VError "Cannot send more than 16 bytes at once")
  else if negb (started this)
  then Plain (VError "Uart must be started before writing")
  else
    let test := acks (block_length buffer) [] in
    Promise
      (bind (bind (bind (write (ONum lenbyte))
        (λ _, expect (ENum 0x1)))
        (λ _, write (block_data buffer)))
        (λ _, expect (EArr test))).

(** [chunkSubstr], lines 576-585. *)
Fixpoint chunk_loop (n o : nat) (str : string) (size : nat) : list string :=
  match n with
  | 0 => []
  | S n' => String.substring o size str :: chunk_loop n' (o + size) str size
  end.

Definition ceil_div (a b : nat) : nat :=
  if a mod b =? 0 then a / b else S (a / b).

Definition chunkSubstr (str : string) (size : nat) : list string :=
  let numChunks := ceil_div (String.length str) size in
  chunk_loop numChunks 0 str size.

(** [Uart.prototype.write], lines 575-602.  [chunks.forEach] extends the
    chain [p] by one [then] per chunk. *)
Definition uart_write (buffer : string) : prom :=
  Get (λ this,
    if String.eqb (mode this) "uart_bridge" then write (OStr buffer)
    else
      let chunks := chunkSubstr buffer 16 in
      foldl (λ p chunk,
               bind p (λ _, Get (λ this, then_return (write_block (BStr chunk) this))))
            (Resolve (VBool true)) chunks).

(** ** The session *)

(** An entry of [this.waiters]: the closure of [expect] with its captured
    [data], the call whose chain it belongs to ([None]: a chain nobody
    holds) and the rest of that chain. *)
Record waiting := {
  w_data : captured;
  w_pid : option nat;
  w_then : list byte → prom
}.

(** A [port.write] whose callback has not fired yet. *)
Record writing := {
  pw_pid : option nat;
  pw_then : option value → prom
}.

(** The interval timer of one [enter_binmode]: its counter [count] and
    what follows [reject]. *)
Record interval := {
  i_count : nat;
  i_pid : option nat;
  i_reject : value → prom
}.

Record timeout := {
  t_pid : option nat;
  t_then : prom
}.

(** History: the arguments of [port.write] and the patterns of the waiters,
    in the order of the calls. *)
Inductive effect :=
| Sent (tx : outdata)
| Awaited (pattern : list byte).

Record session := {
  this : props;
  data_buffer : list byte;
  waiters : list waiting;          (* index 0 is the newest: unshift *)
  writes : list writing;           (* oldest first *)
  intervals : gmap nat interval;
  timeouts : list timeout;         (* oldest first *)
  trace : list effect;
  emitted : list notif;
  settled : list (nat * outcome);
  next_id : nat
}.

Definition with_this (f : props → props) (st : session) : session :=
  {| this := f (this st); data_buffer := data_buffer st; waiters := waiters st;
     writes := writes st; intervals := intervals st; timeouts := timeouts st;
     trace := trace st; emitted := emitted st; settled := settled st;
     next_id := next_id st |}.
Definition with_matcher (ws : list waiting) (buf : list byte) (st : session) : session :=
  {| this := this st; data_buffer := buf; waiters := ws;
     writes := writes st; intervals := intervals st; timeouts := timeouts st;
     trace := trace st; emitted := emitted st; settled := settled st;
     next_id := next_id st |}.
Definition with_writes (f : list writing → list writing) (st : session) : session :=
  {| this := this st; data_buffer := data_buffer st; waiters := waiters st;
     writes := f (writes st); intervals := intervals st; timeouts := timeouts st;
     trace := trace st; emitted := emitted st; settled := settled st;
     next_id := next_id st |}.
Definition with_intervals (f : gmap nat interval → gmap nat interval) (st : session) : session :=
  {| this := this st; data_buffer := data_buffer st; waiters := waiters st;
     writes := writes st; intervals := f (intervals st); timeouts := timeouts st;
     trace := trace st; emitted := emitted st; settled := settled st;
     next_id := next_id st |}.
Definition with_timeouts (f : list timeout → list timeout) (st : session) : session :=
  {| this := this st; data_buffer := data_buffer st; waiters := waiters st;
     writes := writes st; intervals := intervals st; timeouts := f (timeouts st);
     trace := trace st; emitted := emitted st; settled := settled st;
     next_id := next_id st |}.
Definition record (e : effect) (st : session) : session :=
  {| this := this st; data_buffer := data_buffer st; waiters := waiters st;
     writes := writes st; intervals := intervals st; timeouts := timeouts st;
     trace := trace st ++ [e]; emitted := emitted st; settled := settled st;
     next_id := next_id st |}.
Definition notify (n : notif) (st : session) : session :=
  {| this := this st; data_buffer := data_buffer st; waiters := waiters st;
     writes := writes st; intervals := intervals st; timeouts := timeouts st;
     trace := trace st; emitted := emitted st ++ [n]; settled := settled st;
     next_id := next_id st |}.
Definition fresh (st : session) : session :=
  {| this := this st; data_buffer := data_buffer st; waiters := waiters st;
     writes := writes st; intervals := intervals st; timeouts := timeouts st;
     trace := trace st; emitted := emitted st; settled := settled st;
     next_id := S (next_id st) |}.

(** A chain that ends settles the call it belongs to. *)
Definition settle (pid : option nat) (o : outcome) (st : session) : session :=
  match pid with
  | None => st
  | Some i =>
      {| this := this st; data_buffer := data_buffer st; waiters := waiters st;
         writes := writes st; intervals := intervals st; timeouts := timeouts st;
         trace := trace st; emitted := emitted st; settled := settled st ++ [(i, o)];
         next_id := next_id st |}
  end.

(** [emit]: the event is delivered, and the listeners that [Uart] installs
    on the [BusPirate] run (uart.js lines 395-406): ['receive'] is passed on
    as ['data'] while started, a ['mode'] other than the driver's own stops
    the driver. *)
Definition emit (n : notif) (st : session) : session :=
  let st := notify n st in
  match n with
  | NReceive data =>
      if started (this st) then notify (NUartData data) st else st
  | NMode m =>
      if negb (String.eqb m (MODE_NAME uart_constants))
      then with_this (set_started false) st
      else st
  | _ => st
  end.

(** Runs the chain [p] of the call [pid] up to its next suspension point. *)
Fixpoint run (pid : option nat) (p : prom) (st : session) : session :=
  match p with
  | Resolve v => settle pid (Fulfilled v) st
  | Reject e => settle pid (Rejected e) st
  | PortWrite tx k =>
      with_writes (λ ws, ws ++ [{| pw_pid := pid; pw_then := k |}]) (record (Sent tx) st)
  | Expect data k =>
      let data := Buffer_from data in
      let w := {| w_data := CBuffer data; w_pid := pid; w_then := k |} in
      with_matcher (w :: waiters st) (data_buffer st) (record (Awaited data) st)
  | SetTimeout k =>
      with_timeouts (λ ts, ts ++ [{| t_pid := pid; t_then := k |}]) st
  | ProbeInterval reject k =>
      let tid := next_id st in
      let iv := {| i_count := 0; i_pid := pid; i_reject := reject |} in
      run pid (k tid) (with_intervals (insert tid iv) (fresh st))
  | ClearInterval tid k => run pid k (with_intervals (delete tid) st)
  | Get k => run pid (k (this st)) st
  | Put f k => run pid k (with_this f st)
  | Emit n k => run pid k (emit n st)
  end.

(** ** The event handlers *)

(** The loop of the ['data'] handler, lines 68-70, with [i] running from
    [n - 1] down to 0 over the array as the waiters leave it.  [fired]
    collects the waiters that called [resolve], in that order.  [None]: the
    handler cannot go on ([self.waiters[i]] is not a function, or a waiter
    returned [undefined] for the buffer). *)
Fixpoint run_waiters (n : nat) (ws : list waiting) (buf : list byte)
    (fired : list (waiting * list byte))
    : option (list waiting * list byte * list (waiting * list byte)) :=
  match n with
  | 0 => Some (ws, buf, fired)
  | S i =>
      match ws !! i with
      | None => None
      | Some w =>
          match waiter (w_data w) buf with
          | Keep buf' => run_waiters i ws buf' fired
          | Found v buf' => run_waiters i (delete i ws) buf' (fired ++ [(w, v)])
          | Undefined => None
          end
      end
  end.

(** The chain behind a resolved waiter goes on once the handler is done. *)
Definition resume (st : session) (f : waiting * list byte) : session :=
  run (w_pid f.1) (w_then f.1 f.2) st.

(** The ['data'] handler of the port, lines 59-73. *)
Definition on_data (data : list byte) (st : session) : option session :=
  let st := emit (NReceive data) st in
  if 0 <? length (waiters st) then
    match run_waiters (length (waiters st)) (waiters st) (data_buffer st ++ data) [] with
    | Some (ws, buf, fired) => Some (foldl resume (with_matcher ws buf st) fired)
    | None => None
    end
  else Some st.

(** The callback of the interval timer of [enter_binmode], lines 142-151.
    The promise of [this.write(0x00)] is dropped. *)
Definition tick (tid : nat) (st : session) : option session :=
  match intervals st !! tid with
  | None => None
  | Some iv =>
      let st := run None (write (ONum 0x00)) st in
      let count := S (i_count iv) in
      if 25 <? count then
        let st := with_intervals (delete tid) st in
        let st := with_matcher [] (data_buffer st) st in
        Some (run (i_pid iv) (i_reject iv (VError "cannot acquire binary mode")) st)
      else
        Some (with_intervals
                (insert tid {| i_count := count; i_pid := i_pid iv; i_reject := i_reject iv |})
                st)
  end.

(** ** The event loop *)

(** The calls a user can make. *)
Inductive operation :=
| OpWrite (data : outdata)
| OpExpect (data : expected)
| OpResetConsole
| OpEnterBinmode
| OpSwitchMode (newmode : constants)
| OpConfigPeriph (opts : gmap string bool)
| OpUartStart (options : uart_options)
| OpUartSetopts (options : uart_options)
| OpUartEchoRx (on : bool)
| OpUartBridge
| OpUartWriteBlock (buffer : block)
| OpUartWrite (buffer : string).

Definition invoke (op : operation) (this : props) : returned :=
  match op with
  | OpWrite data => Promise (write data)
  | OpExpect data => Promise (expect data)
  | OpResetConsole => Promise reset_console
  | OpEnterBinmode => Promise enter_binmode
  | OpSwitchMode newmode => Promise (switch_mode newmode)
  | OpConfigPeriph opts => Promise (config_periph opts)
  | OpUartStart options => Promise (start options)
  | OpUartSetopts options => Promise (setopts options)
  | OpUartEchoRx on => Promise (echo_rx on)
  | OpUartBridge => Promise uart_bridge
  | OpUartWriteBlock buffer => write_block buffer this
  | OpUartWrite buffer => Promise (uart_write buffer)
  end.

(** A call gets the next id; its outcome is filed under that id. *)
Definition call (op : operation) (st : session) : session :=
  let pid := next_id st in
  let st := fresh st in
  match invoke op (this st) with
  | Promise p => run (Some pid) p st
  | Plain v => settle (Some pid) (Returned v) st
  end.

Inductive event :=
| Call (op : operation)
| Data (chunk : list byte)        (* the port delivers a chunk *)
| Written (err : option value)    (* the oldest outstanding port.write calls back *)
| Tick (tid : nat)                (* the interval timer [tid] fires *)
| Elapsed.                        (* the oldest outstanding setTimeout fires *)

(** [None]: the event cannot happen in this state, or its handler threw. *)
Definition step (ev : event) (st : session) : option session :=
  match ev with
  | Call op => Some (call op st)
  | Data chunk => on_data chunk st
  | Written err =>
      match writes st with
      | [] => None
      | w :: ws => Some (run (pw_pid w) (pw_then w err) (with_writes (λ _, ws) st))
      end
  | Tick tid => tick tid st
  | Elapsed =>
      match timeouts st with
      | [] => None
      | t :: ts => Some (run (t_pid t) (t_then t) (with_timeouts (λ _, ts) st))
      end
  end.

Fixpoint steps (evs : list event) (st : session) : option session :=
  match evs with
  | [] => Some st
  | ev :: evs' =>
      match step ev st with
      | Some st' => steps evs' st'
      | None => None
      end
  end.

(** The session once the constructor has installed the ['data'] handler:
    nothing received, nobody waiting. *)
Definition init : session :=
  {| this := {| mode := ""; started := false; echo_rx_on := false; settings := None |};
     data_buffer := []; waiters := []; writes := []; intervals := ∅; timeouts := [];
     trace := []; emitted := []; settled := []; next_id := 0 |}.

(** ** The callback version, [index.js]

    The entry point [index.js] holds the earlier, callback-based engine.
    Two of its pure parts are embedded: the configuration byte of
    [config_periph] and the waiter closure of [wait_for_data].  Line numbers
    in this part are those of [src/index.js]. *)

(** [config_periph(power, pullups, aux, cs)], line 138; the flags are
    booleans, which the multiplication turns into 0 and 1. *)
Definition index_config_code (power pullups aux cs : bool) : Z :=
  (0x40 + Z.b2z power * 8 + Z.b2z pullups * 4 + Z.b2z aux * 2 + Z.b2z cs)%Z.

(** What one call of a waiter of [wait_for_data] does. *)
Inductive index_verdict :=
| Unmatched (buf : list byte)   (* return data_received *)
| Matched (buf : list byte).    (* arr.splice(idx, 1); callback(); return the rest *)

(** The waiter closure of [wait_for_data], lines 223-237, over the captured
    [Buffer]; its comparison loop, lines 228-231, is the loop [differs]. *)
Definition index_waiter (data data_received : list byte) : index_verdict :=
  if length data_received <? length data then Unmatched data_received
  else if differs (length data) data data_received then Unmatched data_received
  else Matched (drop (length data) data_received).

(** * The vocabulary of the properties *)

(** A waiter whose captured [data] is a [Buffer]. *)
Definition is_buffer (w : waiting) : Prop := ∃ b, w_data w = CBuffer b.

(** The bytes that the resolved waiters took from the buffer. *)
Definition consumed (fired : list (waiting * list byte)) : nat :=
  sum_list ((λ f, length f.2) <$> fired).

(** Every waiter in the array is a closure of [expect] over a [Buffer]. *)
Definition wf (st : session) : Prop := Forall is_buffer (waiters st).

(** The waiter that a call [expect(data)] with id [pid] leaves in the array. *)
Definition expecting (pid : nat) (data : expected) : waiting :=
  {| w_data := CBuffer (Buffer_from data);
     w_pid := Some pid;
     w_then := λ d, Resolve (VBuffer d) |}.

(** [expect] called once per pattern, in the order of the list. *)
Definition register (ds : list expected) (st : session) : session :=
  foldl (λ st d, call (OpExpect d) st) st ds.

(** The chunks delivered one after the other. *)
Definition feed (chunks : list (list byte)) (st : session) : option session :=
  steps (Data <$> chunks) st.

(** The same bytes, delivered one per chunk. *)
Definition bytewise (chunks : list (list byte)) : list (list byte) :=
  (λ b, [b]) <$> concat chunks.

(** The caller's flag, [false] when the key is missing. *)
Definition given (opts : gmap string bool) (key : string) : Z :=
  Z.b2z (default false (opts !! key)).

(** The probe write of one tick. *)
Definition probe : effect := Sent (OArr [0x00%Z]).

(** The write of one tick, whose promise nobody holds. *)
Definition probe_write : writing := {| pw_pid := None; pw_then := written_cb |}.

(** None of the chains suspended in the session belongs to the call [pid],
    the call was made, and no outcome is filed for it. *)
Record gone (pid : nat) (st : session) : Prop := {
  gone_waiters : Forall (λ w, w_pid w ≠ Some pid) (waiters st);
  gone_writes : Forall (λ w, pw_pid w ≠ Some pid) (writes st);
  gone_intervals : map_Forall (λ _ iv, i_pid iv ≠ Some pid) (intervals st);
  gone_timeouts : Forall (λ t, t_pid t ≠ Some pid) (timeouts st);
  gone_old : pid < next_id st;
  gone_unsettled : pid ∉ (settled st).*1
}.

(** No chain suspended in the session belongs to the call [pid], except
    behind waiters: the call of a pending matcher. *)
Record held_by_waiters_only (pid : nat) (st : session) : Prop := {
  held_writes : Forall (λ w, pw_pid w ≠ Some pid) (writes st);
  held_intervals : map_Forall (λ _ iv, i_pid iv ≠ Some pid) (intervals st);
  held_timeouts : Forall (λ t, t_pid t ≠ Some pid) (timeouts st);
  held_old : pid < next_id st;
  held_unsettled : pid ∉ (settled st).*1
}.

(** What happens, event after event, while a payload of 20 bytes is
    written and the device acknowledges: each event of the left column
    causes the effect beside it. *)
Definition write_20_events : list event :=
  [Written None; Data [x01]; Written None; Data (replicate 16 x01);
   Written None; Data [x01]; Written None; Data (replicate 4 x01)].

(** The effects of those events, in order. *)
Definition write_20_effects (payload : string) : list effect :=
  [Sent (OArr [0x1f%Z]); Awaited [x01];
   Sent (OStr (String.substring 0 16 payload)); Awaited (replicate 16 x01);
   Sent (OArr [0x13%Z]); Awaited [x01];
   Sent (OStr (String.substring 16 4 payload)); Awaited (replicate 4 x01)].

(** A session with the UART driver started. *)
Definition uart_ready : session :=
  with_this (λ p, set_started true (set_mode "uart" p)) init.

(** Bridge mode. *)
Definition bridged (p : props) : Prop := mode p = "uart_bridge".

(** A chain that leaves the bridge mode alone: resumed, at any of its
    suspension points, in a session that is in bridge mode, it goes on
    without assigning another mode. *)
Fixpoint keeps_bridge (p : prom) : Prop :=
  match p with
  | Resolve _ | Reject _ => True
  | PortWrite _ k => ∀ err, keeps_bridge (k err)
  | Expect _ k => ∀ d, keeps_bridge (k d)
  | SetTimeout k => keeps_bridge k
  | ProbeInterval reject k => (∀ e, keeps_bridge (reject e)) ∧ (∀ tid, keeps_bridge (k tid))
  | ClearInterval _ k => keeps_bridge k
  | Get k => ∀ this, bridged this → keeps_bridge (k this)
  | Put f k => (∀ this, bridged this → bridged (f this)) ∧ keeps_bridge k
  | Emit _ k => keeps_bridge k
  end.

(** No chain that is suspended in the session would assign another mode:
    what waits behind the waiters, the outstanding writes and the timers
    leaves the bridge mode alone. *)
Record pending_keep_bridge (st : session) : Prop := {
  pk_waiters : Forall (λ w, ∀ d, keeps_bridge (w_then w d)) (waiters st);
  pk_writes : Forall (λ w, ∀ err, keeps_bridge (pw_then w err)) (writes st);
  pk_intervals : map_Forall (λ _ iv, ∀ e, keeps_bridge (i_reject iv e)) (intervals st);
  pk_timeouts : Forall (λ t, keeps_bridge (t_then t)) (timeouts st)
}.

(** Both together: the invariant of a session in bridge mode. *)
Definition in_bridge (st : session) : Prop :=
  bridged (this st) ∧ pending_keep_bridge st.

(** [start()] with no options. *)
Definition no_options : uart_options :=
  {| baudrate := None; pin_output := None; data_bits := None;
     parity_bit := None; stop_bits := None; idle_polarity := None |}.

(** A session in binary mode, nothing in flight. *)
Definition binmode_session : session := with_this (set_mode "binmode") init.

(** Calls and events of every kind, for a session in bridge mode. *)
Definition bridge_events : list event :=
  [Call OpEnterBinmode; Call (OpSwitchMode uart_constants);
   Call (OpUartStart no_options); Call (OpUartSetopts no_options);
   Written None; Data (bytes "BBIO1"); Call (OpUartWrite "AT");
   Written None; Data [x01]; Call (OpUartEchoRx true); Call OpUartBridge;
   Call (OpConfigPeriph ∅); Written None; Data (bytes "ART1")].

(** The session after [uart.uart_bridge()] has completed with nothing else
    in flight. *)
Definition bridge_session : session :=
  default init (steps [Call OpUartBridge; Written None] binmode_session).

(** Nothing in flight: no waiter, no byte left in the buffer, no
    [port.write] whose callback is outstanding. *)
Definition idle (st : session) : Prop :=
  waiters st = [] ∧ data_buffer st = [] ∧ writes st = [].

(** The value of a chain that is fulfilled without suspending: it only
    reads the fields of the session. *)
Fixpoint immediate (this : props) (p : prom) : option value :=
  match p with
  | Resolve v => Some v
  | Get k => immediate this (k this)
  | _ => None
  end.

(** * Properties *)

#[local] Arguments waiter : simpl never.
#[local] Arguments emit : simpl never.

(** ** The waiter *)

Lemma differs_false n (data recv : list byte) :
  differs n data recv = false ↔ ∀ i, i < n → data !! i = recv !! i.
Proof.
  induction n as [|n IH]; simpl.
  - split; [intros _ i Hi; lia | done].
  - case_bool_decide as Hn.
    + rewrite IH. split.
      * intros H i Hi. destruct (decide (i = n)) as [->|]; [done|]. apply H. lia.
      * intros H i Hi. apply H. lia.
    + split; [done|]. intros H. destruct Hn. apply H. lia.
Qed.

Lemma differs_prefix (data rest : list byte) :
  differs (length data) data (data ++ rest) = false.
Proof.
  apply differs_false. intros i Hi. by rewrite lookup_app_l.
Qed.

Lemma differs_not_prefix (data recv : list byte) :
  length data ≤ length recv →
  differs (length data) data recv = false → take (length data) recv = data.
Proof.
  intros Hlen Hd. rewrite differs_false in Hd.
  apply list_eq. intros i.
  destruct (decide (i < length data)) as [Hi|Hi].
  - rewrite lookup_take_lt by done. symmetry. by apply Hd.
  - rewrite lookup_take_ge by lia. symmetry. apply lookup_ge_None. lia.
Qed.

(** A non-empty exact pattern at the front of the buffer is found and
    exactly its bytes are taken. *)
Lemma waiter_found (data rest : list byte) :
  data ≠ [] → waiter (CBuffer data) (data ++ rest) = Found data rest.
Proof.
  intros Hne. unfold waiter.
  rewrite length_app.
  destruct (Nat.ltb_spec (length data + length rest) (length data)) as [?|_]; [lia|].
  destruct (Nat.eqb_spec (length data) 0) as [H0|_].
  { by destruct data. }
  rewrite differs_prefix. by rewrite drop_app_length.
Qed.

(** Otherwise the waiter stays and the buffer is returned as it came. *)
Lemma waiter_keep (data recv : list byte) :
  data ≠ [] → take (length data) recv ≠ data → waiter (CBuffer data) recv = Keep recv.
Proof.
  intros Hne Hpre. unfold waiter.
  destruct (Nat.ltb_spec (length recv) (length data)) as [?|Hlen]; [done|].
  destruct (Nat.eqb_spec (length data) 0) as [H0|_].
  { by destruct data. }
  destruct (differs (length data) data recv) eqn:Hd; [done|].
  by apply differs_not_prefix in Hd.
Qed.

(** The zero-length pattern takes whatever the buffer holds. *)
Lemma waiter_sentinel (recv : list byte) :
  waiter (CBuffer []) recv = Found recv [].
Proof.
  unfold waiter. simpl. by rewrite drop_all.
Qed.

(** A waiter that resolves takes as many bytes as it resolves with. *)
Lemma waiter_Found_drop data recv v buf :
  waiter data recv = Found v buf → buf = drop (length v) recv.
Proof.
  unfold waiter. destruct data as [b|r].
  - repeat case_match; naive_solver.
  - destruct (exec r recv); naive_solver.
Qed.

Lemma waiter_Keep_same data recv buf :
  waiter data recv = Keep buf → buf = recv.
Proof.
  unfold waiter. destruct data as [b|r].
  - repeat case_match; naive_solver.
  - destruct (exec r recv); naive_solver.
Qed.

Lemma waiter_buffer_defined b recv : waiter (CBuffer b) recv ≠ Undefined.
Proof. unfold waiter. repeat case_match; naive_solver. Qed.

(** ** The loop of the data handler *)

Lemma consumed_app fired fired' :
  consumed (fired ++ fired') = consumed fired + consumed fired'.
Proof.
  unfold consumed. rewrite fmap_app. induction ((λ f, length f.2) <$> fired); simpl; lia.
Qed.

(** With closures of [expect] in the array the loop runs to its end; the
    buffer it leaves is the one it got less the bytes of the resolved
    waiters, and the waiters it leaves are among those it found. *)
Lemma run_waiters_spec n : ∀ ws buf fired,
  n ≤ length ws → Forall is_buffer ws →
  ∃ ws' buf' fired',
    run_waiters n ws buf fired = Some (ws', buf', fired ++ fired') ∧
    buf' = drop (consumed fired') buf ∧
    ws' `sublist_of` ws ∧
    (∀ f, f ∈ fired' → f.1 ∈ ws).
Proof.
  induction n as [|n IH]; intros ws buf fired Hn Hws; simpl.
  - exists ws, buf, []. rewrite app_nil_r. split_and!; [done|done|done|].
    intros f Hf. by apply elem_of_nil in Hf.
  - destruct (lookup_lt_is_Some_2 ws n) as [w Hw]; [lia|]. rewrite Hw.
    assert (Hwb : is_buffer w).
    { eapply Forall_forall; [exact Hws|]. by eapply list_elem_of_lookup_2. }
    destruct Hwb as [b Hb]. rewrite Hb.
    destruct (waiter (CBuffer b) buf) as [buf'|v buf'|] eqn:Hv.
    + apply waiter_Keep_same in Hv as ->. apply IH; [lia|done].
    + apply waiter_Found_drop in Hv as ->.
      destruct (IH (delete n ws) (drop (length v) buf) (fired ++ [(w, v)]))
        as (ws' & buf' & fired' & Hrun & Hbuf & Hsub & Hin).
      { rewrite length_delete by eauto. lia. }
      { eapply Forall_forall. intros x Hx. eapply Forall_forall; [exact Hws|].
        eapply elem_of_sublist; [exact Hx|apply sublist_delete]. }
      exists ws', buf', ((w, v) :: fired'). split_and!.
      * rewrite Hrun. by rewrite <- app_assoc.
      * rewrite Hbuf, drop_drop. by f_equal.
      * etrans; [exact Hsub|apply sublist_delete].
      * intros f Hf. apply elem_of_cons in Hf as [->|Hf].
        -- simpl. by eapply list_elem_of_lookup_2.
        -- eapply elem_of_sublist; [by apply Hin|apply sublist_delete].
    + by apply waiter_buffer_defined in Hv.
Qed.

(** Without any assumption on the waiters: what the loop leaves in the
    array was there before, and so was every waiter that resolved. *)
Lemma run_waiters_sub n : ∀ ws buf fired ws' buf' out,
  run_waiters n ws buf fired = Some (ws', buf', out) →
  ws' `sublist_of` ws ∧ ∃ fired', out = fired ++ fired' ∧ ∀ f, f ∈ fired' → f.1 ∈ ws.
Proof.
  induction n as [|n IH]; intros ws buf fired ws' buf' out; simpl.
  - intros [= <- <- <-]. split; [done|]. exists []. rewrite app_nil_r. split; [done|].
    intros f Hf. by apply elem_of_nil in Hf.
  - destruct (ws !! n) as [w|] eqn:Hw; [|done].
    destruct (waiter (w_data w) buf) as [b|v b|]; [| |done].
    + apply IH.
    + intros Hrun. apply IH in Hrun as (Hsub & fired' & -> & Hin). split.
      * etrans; [exact Hsub|apply sublist_delete].
      * exists ((w, v) :: fired'). rewrite <- app_assoc. split; [done|].
        intros f Hf. apply elem_of_cons in Hf as [->|Hf].
        -- by eapply list_elem_of_lookup_2.
        -- eapply elem_of_sublist; [by apply Hin|apply sublist_delete].
Qed.

(** ** What running a chain leaves alone *)

Lemma emit_data_buffer n st : data_buffer (emit n st) = data_buffer st.
Proof. unfold emit. repeat case_match; done. Qed.

Lemma run_data_buffer pid p : ∀ st, data_buffer (run pid p st) = data_buffer st.
Proof.
  induction p as [v|e|tx k IH|d k IH|k IH|rj IHr k IH|tid k IH|k IH|f k IH|n k IH];
    intros st; simpl; rewrite ?IH, ?emit_data_buffer; try done; by destruct pid.
Qed.

Lemma foldl_resume_data_buffer fired : ∀ st,
  data_buffer (foldl resume st fired) = data_buffer st.
Proof.
  induction fired as [|f fired IH]; intros st; simpl; [done|].
  rewrite IH. apply run_data_buffer.
Qed.

Lemma emit_waiters n st : waiters (emit n st) = waiters st.
Proof. unfold emit. repeat case_match; done. Qed.

Lemma run_wf pid p : ∀ st, wf st → wf (run pid p st).
Proof.
  unfold wf.
  induction p as [v|e|tx k IH|d k IH|k IH|rj IHr k IH|tid k IH|k IH|f k IH|n k IH];
    intros st Hst; simpl; try (by apply IH); try (by destruct pid).
  - constructor; [by eexists|done].
  - apply IH. by rewrite emit_waiters.
Qed.

Lemma foldl_resume_wf fired : ∀ st, wf st → wf (foldl resume st fired).
Proof.
  induction fired as [|f fired IH]; intros st Hst; simpl; [done|].
  apply IH. by apply run_wf.
Qed.

Lemma init_wf : wf init.
Proof. constructor. Qed.

Lemma on_data_wf chunk st st' : wf st → on_data chunk st = Some st' → wf st'.
Proof.
  unfold on_data. cbv zeta. intros Hwf. rewrite !emit_waiters, emit_data_buffer.
  destruct (0 <? length (waiters st)).
  - destruct (run_waiters_spec (length (waiters st)) (waiters st)
                (data_buffer st ++ chunk) [])
      as (ws' & buf' & fired' & Hrun & _ & Hsub & _); [done|done|].
    rewrite Hrun. simpl. intros [= <-]. apply foldl_resume_wf.
    unfold wf. simpl. eapply Forall_forall. intros x Hx.
    eapply Forall_forall; [exact Hwf|]. by eapply elem_of_sublist.
  - intros [= <-]. unfold wf. by rewrite emit_waiters.
Qed.

Lemma step_wf ev st st' : wf st → step ev st = Some st' → wf st'.
Proof.
  intros Hwf. destruct ev as [op|chunk|err|tid|]; simpl.
  - intros [= <-]. unfold call. destruct (invoke op _).
    + by apply run_wf.
    + done.
  - by apply on_data_wf.
  - destruct (writes st) as [|w ws]; [done|]. intros [= <-]. by apply run_wf.
  - unfold tick. destruct (intervals st !! tid) as [iv|]; [|done].
    case_match; intros [= <-].
    + apply run_wf. constructor.
    + done.
  - destruct (timeouts st) as [|t ts]; [done|]. intros [= <-]. by apply run_wf.
Qed.

Lemma steps_wf evs : ∀ st st', wf st → steps evs st = Some st' → wf st'.
Proof.
  induction evs as [|ev evs IH]; intros st st' Hwf; simpl.
  - by intros [= <-].
  - destruct (step ev st) as [st1|] eqn:Hs; [|done].
    apply IH. by eapply step_wf.
Qed.

(** ** Inbound chunks and the buffer *)

(** Nothing but the data handler touches the buffer. *)
Lemma step_data_buffer ev st st' :
  (∀ chunk, ev ≠ Data chunk) → step ev st = Some st' → data_buffer st' = data_buffer st.
Proof.
  intros Hev. destruct ev as [op|chunk|err|tid|]; simpl.
  - intros [= <-]. unfold call. cbv zeta. destruct (invoke op _).
    + by rewrite run_data_buffer.
    + done.
  - by destruct (Hev chunk).
  - destruct (writes st) as [|w ws]; [done|]. intros [= <-]. by rewrite run_data_buffer.
  - unfold tick. destruct (intervals st !! tid) as [iv|]; [|done]. cbv zeta.
    case_match; intros [= <-]; rewrite ?run_data_buffer; reflexivity.
  - destruct (timeouts st) as [|t ts]; [done|]. intros [= <-]. by rewrite run_data_buffer.
Qed.

(** C9, as the code has it: a chunk is appended to the buffer, ahead of the
    evaluation of the matchers, only while some matcher is pending; a chunk
    that arrives while none is pending leaves the buffer as it was.  The
    buffer after the handler is the extended one less exactly the bytes
    taken from its front by the matchers that resolved, and no other event
    changes the buffer. *)
Theorem chunk_buffered_while_waiting (st : session) :
  wf st →
  (∀ chunk,
     ∃ st', step (Data chunk) st = Some st' ∧
       match waiters st with
       | [] => data_buffer st' = data_buffer st
       | _ :: _ =>
           ∃ ws fired,
             run_waiters (length (waiters st)) (waiters st) (data_buffer st ++ chunk) []
               = Some (ws, data_buffer st', fired) ∧
             data_buffer st' = drop (consumed fired) (data_buffer st ++ chunk)
       end) ∧
  (∀ ev st',
     (∀ chunk, ev ≠ Data chunk) → step ev st = Some st' → data_buffer st' = data_buffer st).
Proof.
  intros Hwf. split; [|intros ev st'; apply step_data_buffer].
  intros chunk. simpl. unfold on_data. cbv zeta.
  rewrite !emit_waiters, emit_data_buffer.
  destruct (waiters st) as [|w ws] eqn:Hws.
  - eexists. split; [done|]. apply emit_data_buffer.
  - rewrite <- Hws.
    replace (0 <? length (waiters st)) with true by (by rewrite Hws).
    destruct (run_waiters_spec (length (waiters st)) (waiters st)
                (data_buffer st ++ chunk) [])
      as (ws' & buf' & fired' & Hrun & Hbuf & _ & _); [done|done|].
    rewrite Hrun. eexists. split; [done|].
    rewrite foldl_resume_data_buffer. simpl. eauto.
Qed.

Lemma chunk_buffered_while_waiting_witness :
  wf (call (OpExpect (EStr "OK")) init) ∧
  ∃ st', step (Data (bytes "OK1")) (call (OpExpect (EStr "OK")) init) = Some st' ∧
         data_buffer st' = bytes "1".
Proof.
  assert (Hwf : wf (call (OpExpect (EStr "OK")) init)).
  { apply run_wf, init_wf. }
  split; [exact Hwf|].
  destruct (chunk_buffered_while_waiting (call (OpExpect (EStr "OK")) init) Hwf) as [H _].
  destruct (H (bytes "OK1")) as (st' & Hs & ws & fired & Hrun & Hbuf).
  exists st'. split; [exact Hs|].
  rewrite Hbuf. vm_compute in Hrun. by injection Hrun as _ _ <-.
Defined.

(** C9 as stated fails: with no matcher pending the chunk is not appended. *)
Lemma chunk_dropped_when_idle :
  ∃ st', step (Data [x01]) init = Some st' ∧
         data_buffer st' = [] ∧
         data_buffer st' ≠ data_buffer init ++ [x01].
Proof. eexists. split; [reflexivity|]. split; [reflexivity|]. discriminate. Qed.

(** ** Matchers registered one after the other *)

Lemma register_spec ds : ∀ st,
  waiters (register ds st)
    = reverse (imap (λ i d, expecting (next_id st + i) d) ds) ++ waiters st ∧
  data_buffer (register ds st) = data_buffer st ∧
  settled (register ds st) = settled st ∧
  started (this (register ds st)) = started (this st).
Proof.
  induction ds as [|d ds IH]; intros st; simpl.
  - done.
  - destruct (IH (call (OpExpect d) st)) as (Hw & Hb & Hs & Hst).
    unfold register in *. rewrite Hw, Hb, Hs, Hst. simpl. split_and!; try done.
    rewrite reverse_cons, <- app_assoc. simpl.
    rewrite Nat.add_0_r. do 2 f_equal.
    apply imap_ext. intros i x _. simpl. f_equal. lia.
Qed.

(** The loop over such an array, fed the patterns one after the other and
    then [rest]: every waiter resolves with its own pattern, oldest first,
    and [rest] is what remains. *)
Lemma run_waiters_registered ds : ∀ k rest fired,
  Forall (λ d, Buffer_from d ≠ []) ds →
  run_waiters (length ds) (reverse (imap (λ i d, expecting (k + i) d) ds))
    (concat (Buffer_from <$> ds) ++ rest) fired
  = Some ([], rest, fired ++ imap (λ i d, (expecting (k + i) d, Buffer_from d)) ds).
Proof.
  induction ds as [|d ds IH]; intros k rest fired Hne; simpl.
  - by rewrite app_nil_r.
  - apply Forall_cons in Hne as [Hd Hne].
    rewrite reverse_cons.
    set (ws := reverse (imap ((λ i d, expecting (k + i) d) ∘ S) ds)).
    assert (Hlen : length ds = length ws).
    { unfold ws. by rewrite length_reverse, length_imap. }
    rewrite Hlen at 1. rewrite list_lookup_middle by done. simpl.
    rewrite <- app_assoc, waiter_found by done.
    rewrite Hlen at 2. rewrite delete_middle, app_nil_r.
    unfold ws.
    rewrite (imap_ext _ (λ i d, expecting (S k + i) d)) at 1; last first.
    { intros i x _. simpl. f_equal. lia. }
    rewrite IH by done. rewrite <- app_assoc. simpl. rewrite Nat.add_0_r.
    do 4 f_equal. apply imap_ext. intros i x _. simpl. do 2 f_equal. lia.
Qed.

Lemma foldl_resume_registered ds : ∀ k st,
  let st' := foldl resume st (imap (λ i d, (expecting (k + i) d, Buffer_from d)) ds) in
  settled st' = settled st ++ imap (λ i d, (k + i, Fulfilled (VBuffer (Buffer_from d)))) ds ∧
  waiters st' = waiters st ∧
  data_buffer st' = data_buffer st.
Proof.
  induction ds as [|d ds IH]; intros k st; simpl.
  - by rewrite app_nil_r.
  - rewrite (imap_ext _ (λ i d, (expecting (S k + i) d, Buffer_from d))); last first.
    { intros i x _. simpl. do 2 f_equal. lia. }
    destruct (IH (S k) (resume st (expecting (k + 0) d, Buffer_from d))) as (Hs & Hw & Hb).
    rewrite Hs, Hw, Hb. simpl. split_and!; try done.
    rewrite <- app_assoc. simpl. rewrite Nat.add_0_r. do 2 f_equal.
    apply imap_ext. intros i x _. simpl. do 1 f_equal. lia.
Qed.

(** C1, for patterns of at least one byte: matchers registered one after
    the other on an idle session and fed, in one chunk, their patterns in
    that order (and then [rest]) all resolve, oldest first, each with its
    own pattern; nobody is left waiting and exactly the patterns have been
    taken from the front of the buffer.  (The patterns need not differ.) *)
Theorem matchers_resolve_in_registration_order
    (ds : list expected) (rest : list byte) (st : session) :
  Forall (λ d, Buffer_from d ≠ []) ds →
  ds ≠ [] →
  waiters st = [] →
  data_buffer st = [] →
  ∃ st', step (Data (concat (Buffer_from <$> ds) ++ rest)) (register ds st) = Some st' ∧
    settled st'
      = settled st ++ imap (λ i d, (next_id st + i, Fulfilled (VBuffer (Buffer_from d)))) ds ∧
    waiters st' = [] ∧
    data_buffer st' = rest.
Proof.
  intros Hne Hds Hw Hb.
  destruct (register_spec ds st) as (Hrw & Hrb & Hrs & _).
  rewrite Hw, app_nil_r in Hrw. rewrite Hb in Hrb.
  simpl. unfold on_data. cbv zeta.
  rewrite !emit_waiters, emit_data_buffer, Hrw, Hrb.
  rewrite length_reverse, length_imap.
  replace (0 <? length ds) with true by (by destruct ds).
  simpl. rewrite run_waiters_registered by done. simpl.
  eexists. split; [done|].
  destruct (foldl_resume_registered ds (next_id st)
              (with_matcher [] rest (emit (NReceive (concat (Buffer_from <$> ds) ++ rest))
                                          (register ds st))))
    as (Hs & Hw' & Hb').
  rewrite Hs, Hw', Hb'. simpl. split_and!; try done.
  f_equal. rewrite <- Hrs. unfold emit. repeat case_match; done.
Qed.

Lemma matchers_resolve_in_registration_order_witness :
  Forall (λ d, Buffer_from d ≠ []) [EStr "AT"; EArr [0x01; 0x01]%Z; ENum 0x01] ∧
  (∃ st',
    step (Data (bytes "AT" ++ [x01; x01; x01] ++ bytes "rest"))
         (register [EStr "AT"; EArr [0x01; 0x01]%Z; ENum 0x01] init) = Some st' ∧
    settled st' = [(0, Fulfilled (VBuffer (bytes "AT")));
                   (1, Fulfilled (VBuffer [x01; x01]));
                   (2, Fulfilled (VBuffer [x01]))] ∧
    waiters st' = [] ∧
    data_buffer st' = bytes "rest").
Proof.
  assert (H : Forall (λ d, Buffer_from d ≠ []) [EStr "AT"; EArr [0x01; 0x01]%Z; ENum 0x01]).
  { repeat constructor; discriminate. }
  split; [exact H|].
  exact (matchers_resolve_in_registration_order
           [EStr "AT"; EArr [0x01; 0x01]%Z; ENum 0x01] (bytes "rest") init
           H ltac:(discriminate) eq_refl eq_refl).
Defined.

(** C1 as stated fails when one of the patterns is the zero-length one: it
    takes the whole buffer, not zero bytes, and the matcher registered
    after it stays pending. *)
Lemma zero_length_pattern_takes_all :
  ∃ st',
    step (Data (concat (Buffer_from <$> [EStr ""; EStr "a"])))
         (register [EStr ""; EStr "a"] init) = Some st' ∧
    settled st' = [(0, Fulfilled (VBuffer (bytes "a")))] ∧
    w_data <$> waiters st' = [CBuffer (bytes "a")] ∧
    data_buffer st' = [].
Proof. eexists. split; [reflexivity|]. repeat split. Qed.

(** ** Chunk boundaries *)

Lemma emit_settled n st : settled (emit n st) = settled st.
Proof. unfold emit. repeat case_match; done. Qed.

Lemma concat_bytewise chunks : concat (bytewise chunks) = concat chunks.
Proof.
  unfold bytewise. induction (concat chunks) as [|b l IH]; simpl; [done|by f_equal].
Qed.

(** With nobody waiting a chunk settles nothing. *)
Lemma on_data_idle chunk st :
  waiters st = [] →
  ∃ st', on_data chunk st = Some st' ∧ waiters st' = [] ∧ settled st' = settled st.
Proof.
  intros Hw. unfold on_data. cbv zeta. rewrite emit_waiters, Hw. simpl.
  eexists. split; [done|]. by rewrite emit_waiters, emit_settled.
Qed.

Lemma feed_cons c cs st :
  feed (c :: cs) st = match on_data c st with Some st' => feed cs st' | None => None end.
Proof. done. Qed.

Lemma feed_idle chunks : ∀ st,
  waiters st = [] →
  ∃ st', feed chunks st = Some st' ∧ waiters st' = [] ∧ settled st' = settled st.
Proof.
  induction chunks as [|c cs IH]; intros st Hw.
  - by exists st.
  - rewrite feed_cons.
    destruct (on_data_idle c st Hw) as (st1 & -> & Hw1 & Hs1).
    destruct (IH st1 Hw1) as (st' & -> & Hw' & Hs'). exists st'. by rewrite Hs', Hs1.
Qed.

(** One matcher with a pattern of at least one byte: a chunk resolves it
    when the buffer then starts with the pattern, and is kept in the buffer
    otherwise. *)
Lemma on_data_single chunk pid d st :
  Buffer_from d ≠ [] →
  waiters st = [expecting pid d] →
  ∃ st', on_data chunk st = Some st' ∧
    if bool_decide (take (length (Buffer_from d)) (data_buffer st ++ chunk) = Buffer_from d)
    then waiters st' = [] ∧
         settled st' = settled st ++ [(pid, Fulfilled (VBuffer (Buffer_from d)))]
    else waiters st' = [expecting pid d] ∧
         data_buffer st' = data_buffer st ++ chunk ∧
         settled st' = settled st.
Proof.
  intros Hne Hw. unfold on_data. cbv zeta.
  rewrite !emit_waiters, emit_data_buffer, Hw. simpl.
  case_bool_decide as Hp.
  - pose proof (take_drop (length (Buffer_from d)) (data_buffer st ++ chunk)) as Hsplit.
    rewrite Hp in Hsplit. rewrite <- Hsplit, waiter_found by done. simpl.
    eexists. split; [done|]. simpl. by rewrite emit_settled.
  - rewrite waiter_keep by done. simpl.
    eexists. split; [done|]. simpl. by rewrite emit_settled.
Qed.

(** Whatever the chunk boundaries, the matcher resolves exactly when the
    stream as a whole starts with its pattern. *)
Lemma feed_single pid d chunks : ∀ st,
  Buffer_from d ≠ [] →
  waiters st = [expecting pid d] →
  take (length (Buffer_from d)) (data_buffer st) ≠ Buffer_from d →
  ∃ st', feed chunks st = Some st' ∧
    settled st' = settled st ++
      if bool_decide (take (length (Buffer_from d)) (data_buffer st ++ concat chunks)
                      = Buffer_from d)
      then [(pid, Fulfilled (VBuffer (Buffer_from d)))] else [].
Proof.
  induction chunks as [|c cs IH]; intros st Hne Hw Hnot.
  - exists st. split; [done|]. simpl. rewrite app_nil_r.
    rewrite bool_decide_eq_false_2 by done. by rewrite app_nil_r.
  - rewrite feed_cons.
    destruct (on_data_single c pid d st Hne Hw) as (st1 & -> & H1).
    case_bool_decide as Hp.
    + destruct H1 as [Hw1 Hs1].
      destruct (feed_idle cs st1 Hw1) as (st' & -> & _ & Hs').
      eexists. split; [done|]. rewrite Hs', Hs1. f_equal.
      rewrite bool_decide_eq_true_2; [done|]. simpl.
      rewrite app_assoc, take_app_le; [done|].
      rewrite <- Hp at 1. rewrite length_take. lia.
    + destruct H1 as (Hw1 & Hb1 & Hs1).
      destruct (IH st1 Hne Hw1) as (st' & -> & Hs').
      { by rewrite Hb1. }
      eexists. split; [done|]. simpl. by rewrite Hs', Hs1, Hb1, <- app_assoc.
Qed.

(** C6, for what the code guarantees: with a single matcher, of a pattern
    of at least one byte, registered on an idle session, the bytes
    delivered one per chunk settle exactly what they settle when delivered
    as one concatenated chunk. *)
Theorem single_matcher_chunk_independent
    (d : expected) (chunks : list (list byte)) (st : session) :
  Buffer_from d ≠ [] →
  waiters st = [] →
  data_buffer st = [] →
  ∃ s1 s2,
    feed (bytewise chunks) (call (OpExpect d) st) = Some s1 ∧
    feed [concat chunks] (call (OpExpect d) st) = Some s2 ∧
    settled s1 = settled s2.
Proof.
  intros Hne Hw Hb.
  assert (Hw1 : waiters (call (OpExpect d) st) = [expecting (next_id st) d]).
  { unfold call. simpl. by rewrite Hw. }
  assert (Hb1 : take (length (Buffer_from d)) (data_buffer (call (OpExpect d) st))
                ≠ Buffer_from d).
  { unfold call. simpl. rewrite Hb, take_nil. done. }
  destruct (feed_single (next_id st) d (bytewise chunks) _ Hne Hw1 Hb1) as (s1 & H1 & Hs1).
  destruct (feed_single (next_id st) d [concat chunks] _ Hne Hw1 Hb1) as (s2 & H2 & Hs2).
  exists s1, s2. split_and!; [done|done|].
  rewrite Hs1, Hs2, concat_bytewise. simpl. by rewrite app_nil_r.
Qed.

Lemma single_matcher_chunk_independent_witness :
  Buffer_from (EStr "BBIO1") ≠ [] ∧
  ∃ s1 s2,
    feed (bytewise [bytes "BB"; bytes "IO1x"]) (call (OpExpect (EStr "BBIO1")) init) = Some s1 ∧
    feed [concat [bytes "BB"; bytes "IO1x"]] (call (OpExpect (EStr "BBIO1")) init) = Some s2 ∧
    settled s1 = settled s2.
Proof.
  assert (H : Buffer_from (EStr "BBIO1") ≠ []) by discriminate.
  split; [exact H|].
  exact (single_matcher_chunk_independent (EStr "BBIO1") [bytes "BB"; bytes "IO1x"] init
           H eq_refl eq_refl).
Defined.

(** C6 as stated fails twice over.  The zero-length pattern resolves with
    the first chunk, so with one byte when the bytes come one at a time.
    And with two matchers a chunk gives each matcher one try only: of
    ["b"] (older) and ["a"], the stream ["ab"] in one chunk resolves ["a"]
    alone, one byte at a time both. *)
Lemma chunk_boundaries_matter :
  (∃ s1 s2,
     feed (bytewise [bytes "ab"]) (register [EStr ""] init) = Some s1 ∧
     feed [concat [bytes "ab"]] (register [EStr ""] init) = Some s2 ∧
     settled s1 = [(0, Fulfilled (VBuffer (bytes "a")))] ∧
     settled s2 = [(0, Fulfilled (VBuffer (bytes "ab")))]) ∧
  (∃ s1 s2,
     feed (bytewise [bytes "ab"]) (register [EStr "b"; EStr "a"] init) = Some s1 ∧
     feed [concat [bytes "ab"]] (register [EStr "b"; EStr "a"] init) = Some s2 ∧
     settled s1 = [(1, Fulfilled (VBuffer (bytes "a"))); (0, Fulfilled (VBuffer (bytes "b")))] ∧
     settled s2 = [(1, Fulfilled (VBuffer (bytes "a")))]).
Proof.
  split; eexists _, _; (split; [by vm_compute|]); (split; [by vm_compute|]);
    split; by vm_compute.
Qed.

(** ** Textual patterns *)

(** A [RegExp] given to [expect] is turned into the one-byte buffer [00]
    before the waiter is built, whatever the expression. *)
Lemma Buffer_from_RegExp r : Buffer_from (ERegExp r) = [x00].
Proof. done. Qed.

(** C3 on the code: [expect] of a [RegExp], whatever the expression, is
    [expect(0x00)].  At [expect(/BBIO1/)] followed by the chunk ["xxBBIO1"]
    the waiter holds the buffer [00], not the expression, so nothing is
    searched, nothing resolves and nothing is taken from the buffer; a
    string pattern is compared at the front of the buffer only, so the noise
    keeps it pending too.  The branch for a [RegExp] itself, which no waiter
    of [expect] reaches, would resolve with ["BBIO1"] and cut as many bytes
    from the front of the buffer: the noise and part of the match. *)
Theorem regexp_pattern_never_searched :
  (∀ r st, call (OpExpect (ERegExp r)) st = call (OpExpect (ENum 0x00)) st) ∧
  (∃ st',
     step (Data (bytes "xxBBIO1"))
          (call (OpExpect (ERegExp (literal (bytes "BBIO1")))) init) = Some st' ∧
     settled st' = [] ∧
     w_data <$> waiters st' = [CBuffer [x00]] ∧
     data_buffer st' = bytes "xxBBIO1") ∧
  (∃ st',
     step (Data (bytes "xxBBIO1")) (call (OpExpect (EStr "BBIO1")) init) = Some st' ∧
     settled st' = [] ∧
     w_data <$> waiters st' = [CBuffer (bytes "BBIO1")] ∧
     data_buffer st' = bytes "xxBBIO1") ∧
  waiter (CRegExp (literal (bytes "BBIO1"))) (bytes "xxBBIO1")
    = Found (bytes "BBIO1") (bytes "O1").
Proof.
  split_and!.
  - reflexivity.
  - eexists. split; [reflexivity|]. repeat split.
  - eexists. split; [reflexivity|]. repeat split.
  - reflexivity.
Qed.

(** ** The peripheral configuration byte *)

Lemma periph_defaults_false key b : periph_defaults !! key = Some b → b = false.
Proof.
  unfold periph_defaults. intros H. apply elem_of_list_to_map_2 in H.
  repeat (apply elem_of_cons in H as [[= _ ->]|H]; [done|]).
  by apply elem_of_nil in H.
Qed.

(** A flag of the merged object is the caller's, or [false]. *)
Lemma flag_assign opts key :
  flag (opts ∪ periph_defaults) key = Z.b2z (default false (opts !! key)).
Proof.
  unfold flag. rewrite lookup_union.
  destruct (opts !! key) as [b|], (periph_defaults !! key) as [b'|] eqn:Hd; simpl; try done.
  by apply periph_defaults_false in Hd as ->.
Qed.

(** C2 on the code: [(o.clk < 2)] is a comparison, true for either value of
    the flag, so bit 0 of the command byte is always set and bit 2 never:
    [clk] controls no bit, and [cs], which shares bit 0, cannot clear it.
    With [{clk: true}], as with [{}] and with [{cs: true}], the byte is
    [0x81]. *)
Theorem config_code_compares_clk (opts : gmap string bool) :
  config_code opts
    = (0x81 + 64 * given opts "power" + 32 * given opts "pullups" +
       16 * given opts "aux" + 8 * given opts "mosi" + 2 * given opts "miso")%Z ∧
  config_code {["clk" := true]} = 0x81%Z ∧
  config_code ∅ = 0x81%Z ∧
  config_code {["cs" := true]} = 0x81%Z.
Proof.
  split; [|by vm_compute].
  unfold config_code. cbv zeta. rewrite !flag_assign. unfold given.
  destruct (default false (opts !! "power")), (default false (opts !! "pullups")),
    (default false (opts !! "aux")), (default false (opts !! "mosi")),
    (default false (opts !! "clk")), (default false (opts !! "miso")),
    (default false (opts !! "cs")); reflexivity.
Qed.

(** The scenario of the specification does hold: bit 0 is set by the
    comparison, not by [cs]. *)
Lemma config_periph_power_cs :
  ∃ st',
    steps [Call (OpConfigPeriph {["power" := true; "cs" := true]});
           Written None; Data [x01]] init = Some st' ∧
    trace st' = [Sent (OArr [0xC1%Z]); Awaited [x01]] ∧
    settled st' = [(0, Fulfilled VUndefined)] ∧
    emitted st' = [NReceive [x01]; NPeripherals 0xC1].
Proof. eexists. split; [by vm_compute|]. repeat split. Qed.

(** ** Binary-mode acquisition *)

(** A tick below the bound: one more probe write, one more on the counter,
    nothing else. *)
Lemma tick_below tid st iv :
  intervals st !! tid = Some iv →
  i_count iv < 25 →
  ∃ st', tick tid st = Some st' ∧
    intervals st'
      = <[tid := {| i_count := S (i_count iv); i_pid := i_pid iv; i_reject := i_reject iv |}]>
          (intervals st) ∧
    trace st' = trace st ++ [probe] ∧
    writes st' = writes st ++ [probe_write] ∧
    waiters st' = waiters st ∧
    settled st' = settled st ∧
    this st' = this st ∧
    timeouts st' = timeouts st ∧
    next_id st' = next_id st ∧
    data_buffer st' = data_buffer st.
Proof.
  intros Hiv Hc. unfold tick. rewrite Hiv. cbv zeta.
  destruct (Nat.ltb_spec 25 (S (i_count iv))) as [?|_]; [lia|].
  eexists. split; [done|]. done.
Qed.

(** The tick that finds the counter at the bound: the probe is written once
    more, the timer goes, the array of waiters is replaced by an empty one
    and the chain goes on from the rejection. *)
Lemma tick_exhausted tid st iv :
  intervals st !! tid = Some iv →
  25 ≤ i_count iv →
  tick tid st
  = Some (run (i_pid iv) (i_reject iv (VError "cannot acquire binary mode"))
            (with_matcher [] (data_buffer st)
               (with_intervals (delete tid) (run None (write (ONum 0x00)) st)))).
Proof.
  intros Hiv Hc. unfold tick. rewrite Hiv. cbv zeta.
  destruct (Nat.ltb_spec 25 (S (i_count iv))) as [_|?]; [|lia].
  reflexivity.
Qed.

Lemma ticks_below tid n : ∀ st iv,
  intervals st !! tid = Some iv →
  i_count iv + n ≤ 25 →
  ∃ st', steps (replicate n (Tick tid)) st = Some st' ∧
    intervals st'
      = <[tid := {| i_count := i_count iv + n; i_pid := i_pid iv; i_reject := i_reject iv |}]>
          (intervals st) ∧
    trace st' = trace st ++ replicate n probe ∧
    writes st' = writes st ++ replicate n probe_write ∧
    waiters st' = waiters st ∧
    settled st' = settled st ∧
    this st' = this st ∧
    timeouts st' = timeouts st ∧
    next_id st' = next_id st ∧
    data_buffer st' = data_buffer st.
Proof.
  induction n as [|n IH]; intros st iv Hiv Hc.
  - exists st. rewrite Nat.add_0_r, !app_nil_r. split_and!; try done.
    symmetry. apply insert_id. by destruct iv.
  - destruct (tick_below tid st iv Hiv)
      as (st1 & Ht & Hi1 & Ht1 & Hwr1 & Hw1 & Hs1 & Hp1 & Hto1 & Hn1 & Hb1); [lia|].
    destruct (IH st1 {| i_count := S (i_count iv); i_pid := i_pid iv;
                        i_reject := i_reject iv |})
      as (st' & Hst & Hi' & Ht' & Hwr' & Hw' & Hs' & Hp' & Hto' & Hn' & Hb').
    { rewrite Hi1. apply lookup_insert_eq. }
    { simpl. lia. }
    exists st'. simpl in *. rewrite Ht, Hst.
    rewrite Hi', Ht', Hwr', Hw', Hs', Hp', Hto', Hn', Hb', Hi1, Ht1, Hwr1, <- !app_assoc.
    rewrite insert_insert_eq.
    split_and!; try done. do 2 f_equal. lia.
Qed.

(** C5 on the code: the bound is tested with [count > 25] after the write,
    so the 25th tick leaves the acquisition going and it is the 26th, after
    a 26th probe write, that rejects; no tick can follow it. *)
Theorem enter_binmode_probes_26_times :
  (∃ st25,
     steps (Call OpEnterBinmode :: replicate 25 (Tick 1)) init = Some st25 ∧
     trace st25 = Awaited (bytes "BBIO1") :: replicate 25 probe ∧
     settled st25 = [] ∧
     i_count <$> intervals st25 !! 1 = Some 25) ∧
  (∃ st26,
     steps (Call OpEnterBinmode :: replicate 26 (Tick 1)) init = Some st26 ∧
     trace st26 = Awaited (bytes "BBIO1") :: replicate 26 probe ∧
     settled st26 = [(0, Rejected (VError "cannot acquire binary mode"))] ∧
     intervals st26 !! 1 = None ∧
     step (Tick 1) st26 = None).
Proof.
  split.
  - eexists. split; [by vm_compute|]. by vm_compute.
  - eexists. split; [by vm_compute|]. by vm_compute.
Qed.

(** The acquisition as it is meant to go: ["BBIO1"] arrives after two
    probes, the call is fulfilled, the mode is ["binmode"] and the timer is
    gone. *)
Example enter_binmode_acquires :
  ∃ st',
    steps [Call OpEnterBinmode; Tick 1; Tick 1; Data (bytes "BBIO1")] init = Some st' ∧
    settled st' = [(0, Fulfilled (VBool true))] ∧
    mode (this st') = "binmode" ∧
    trace st' = [Awaited (bytes "BBIO1"); probe; probe] ∧
    step (Tick 1) st' = None.
Proof. eexists. split; [by vm_compute|]. by vm_compute. Qed.

(** Called in binary mode, it returns at once and writes nothing. *)
Example enter_binmode_idempotent :
  settled (call OpEnterBinmode binmode_session) = [(0, Fulfilled VUndefined)] ∧
  trace (call OpEnterBinmode binmode_session) = [].
Proof. by vm_compute. Qed.

Lemma steps_app evs1 evs2 : ∀ st,
  steps (evs1 ++ evs2) st
  = match steps evs1 st with Some st' => steps evs2 st' | None => None end.
Proof.
  induction evs1 as [|ev evs1 IH]; intros st; simpl; [done|].
  destruct (step ev st); [apply IH|done].
Qed.

(** ** Calls that nothing in the session will ever settle *)

Section Gone.

Variable pid : nat.

Lemma settle_gone q o st : q ≠ Some pid → gone pid st → gone pid (settle q o st).
Proof.
  intros Hq [? ? ? ? ? Hs]. destruct q as [i|]; [|done]. split; simpl; try done.
  rewrite fmap_app. apply not_elem_of_app. split; [done|]. simpl.
  intros Hi. apply elem_of_cons in Hi as [->|Hi]; [done|]. by apply elem_of_nil in Hi.
Qed.

Lemma emit_gone n st : gone pid st → gone pid (emit n st).
Proof.
  intros [? ? ? ? ? ?]. unfold emit. cbv zeta.
  destruct n; simpl; repeat case_match; done.
Qed.

Lemma run_gone q p : ∀ st, q ≠ Some pid → gone pid st → gone pid (run q p st).
Proof.
  induction p as [v|e|tx k IH|d k IH|k IH|rj IHr k IH|tid k IH|k IH|f k IH|n k IH];
    intros st Hq Hst; simpl.
  - by apply settle_gone.
  - by apply settle_gone.
  - destruct Hst as [? ? ? ? ? ?]. split; simpl; try done.
    apply Forall_app. split; [done|]. by constructor.
  - destruct Hst as [? ? ? ? ? ?]. split; simpl; try done. by constructor.
  - destruct Hst as [? ? ? ? ? ?]. split; simpl; try done.
    apply Forall_app. split; [done|]. by constructor.
  - apply IH; [done|]. destruct Hst as [? ? ? ? ? ?]. split; simpl; try done; [|lia].
    by apply map_Forall_insert_2.
  - apply IH; [done|]. destruct Hst as [? ? ? ? ? ?]. split; simpl; try done.
    by apply map_Forall_delete.
  - by apply IH.
  - apply IH; [done|]. by destruct Hst as [? ? ? ? ? ?].
  - apply IH; [done|]. by apply emit_gone.
Qed.

Lemma foldl_resume_gone fired : ∀ st,
  (∀ f, f ∈ fired → w_pid f.1 ≠ Some pid) →
  gone pid st → gone pid (foldl resume st fired).
Proof.
  induction fired as [|f fired IH]; intros st Hf Hst; simpl; [done|].
  apply IH.
  - intros f' Hf'. apply Hf. by right.
  - apply run_gone; [|done]. apply Hf. by left.
Qed.

Lemma step_gone ev st st' : gone pid st → step ev st = Some st' → gone pid st'.
Proof.
  intros Hst. destruct ev as [op|chunk|err|tid|]; simpl.
  - intros [= <-]. unfold call.
    assert (Hq : Some (next_id st) ≠ Some pid).
    { destruct Hst as [_ _ _ _ Hold _]. intros [= Heq]. lia. }
    assert (Hf : gone pid (fresh st)).
    { destruct Hst as [? ? ? ? ? ?]. split; simpl; try done. lia. }
    destruct (invoke op (this (fresh st))).
    + by apply run_gone.
    + by apply settle_gone.
  - unfold on_data. cbv zeta.
    pose proof (emit_gone (NReceive chunk) st Hst) as He.
    destruct (0 <? length (waiters (emit (NReceive chunk) st))); [|by intros [= <-]].
    destruct (run_waiters _ _ _ _) as [[[ws buf] fired]|] eqn:Hrun; [|done].
    intros [= <-].
    apply run_waiters_sub in Hrun as (Hsub & fired' & -> & Hin). simpl in *.
    destruct He as [Hw ? ? ? ? ?]. rewrite Forall_forall in Hw.
    apply foldl_resume_gone.
    + intros f Hf. apply Hw. by apply Hin.
    + split; simpl; try done.
      apply Forall_forall. intros w Hw'. apply Hw. by eapply elem_of_sublist.
  - destruct (writes st) as [|w ws] eqn:Hws; [done|]. intros [= <-].
    destruct Hst as [? Hwr ? ? ? ?]. rewrite Hws in Hwr.
    apply Forall_cons in Hwr as [Hw Hwr].
    apply run_gone; [done|]. by split.
  - unfold tick. destruct (intervals st !! tid) as [iv|] eqn:Hiv; [|done]. cbv zeta.
    assert (Hq : i_pid iv ≠ Some pid).
    { destruct Hst as [_ _ Hi _ _ _]. by eapply (Hi tid iv). }
    pose proof (run_gone None (write (ONum 0)) st ltac:(done) Hst) as [? ? ? ? ? ?].
    case_match; intros [= <-].
    + apply run_gone; [done|]. split; simpl; try done.
      by apply map_Forall_delete.
    + split; simpl; try done. by apply map_Forall_insert_2.
  - destruct (timeouts st) as [|t ts] eqn:Hts; [done|]. intros [= <-].
    destruct Hst as [? ? ? Hto ? ?]. rewrite Hts in Hto.
    apply Forall_cons in Hto as [Ht Hto].
    apply run_gone; [done|]. by split.
Qed.

(** Whatever happens next, a call that is gone stays without outcome. *)
Lemma steps_gone evs : ∀ st st',
  gone pid st → steps evs st = Some st' → pid ∉ (settled st').*1.
Proof.
  induction evs as [|ev evs IH]; intros st st' Hst; simpl.
  - intros [= <-]. by destruct Hst.
  - destruct (step ev st) as [st1|] eqn:Hs; [|done].
    apply IH. by eapply step_gone.
Qed.

End Gone.

(** C4, as the code has it: when the acquisition runs out of attempts the
    array of waiters is replaced by an empty one and the acquisition's own
    promise is rejected with the error; that is the only outcome filed.
    The matchers pending at that moment, whatever they are, are dropped and
    not resolved: a call [pid] that was waiting on a matcher has no outcome
    then and gets none from anything that happens later. *)
Theorem exhaustion_drops_pending_matchers (st : session) (pid : nat) :
  mode (this st) ≠ "binmode" →
  mode (this st) ≠ "uart_bridge" →
  held_by_waiters_only pid st →
  ∃ st',
    steps (Call OpEnterBinmode :: replicate 26 (Tick (S (next_id st)))) st = Some st' ∧
    waiters st' = [] ∧
    settled st'
      = settled st ++ [(next_id st, Rejected (VError "cannot acquire binary mode"))] ∧
    ∀ evs st'', steps evs st' = Some st'' → pid ∉ (settled st'').*1.
Proof.
  intros Hb Hu [Hwr Hiv Hto Hold Hun].
  apply String.eqb_neq in Hb, Hu.
  change (replicate 26 (Tick (S (next_id st))))
    with (replicate 25 (Tick (S (next_id st))) ++ [Tick (S (next_id st))]).
  cbn [steps step]. unfold call. cbn [invoke]. unfold enter_binmode.
  cbn [run fresh this]. rewrite Hb, Hu. cbn [orb run bind expect fresh next_id].
  match goal with |- context [steps _ ?s] => set (s1 := s) end.
  assert (Hi : intervals s1 !! S (next_id st)
               = Some {| i_count := 0; i_pid := Some (next_id st); i_reject := λ e, Reject e |}).
  { unfold s1. cbn. by rewrite lookup_insert_eq. }
  destruct (ticks_below (S (next_id st)) 25 s1 _ Hi)
    as (s25 & Hs & Hi25 & _ & Hwr25 & _ & Hs25 & _ & Hto25 & Hn25 & _); [simpl; lia|].
  rewrite steps_app, Hs. cbn [steps step].
  erewrite tick_exhausted; [|rewrite Hi25; apply lookup_insert_eq|simpl; lia].
  eexists. split; [done|]. simpl. rewrite Hs25. split_and!; [done|done|].
  intros evs st''. apply steps_gone.
  assert (Hne : Some (next_id st) ≠ Some pid) by (intros [= Heq]; lia).
  split; simpl.
  - constructor.
  - rewrite Hwr25. unfold s1. simpl.
    apply Forall_app. split; [|by repeat constructor].
    apply Forall_app. split; [done|]. by repeat constructor.
  - rewrite Hi25. apply map_Forall_delete, map_Forall_insert_2; [done|].
    unfold s1. simpl. by apply map_Forall_insert_2.
  - by rewrite Hto25.
  - rewrite Hn25. unfold s1. simpl. lia.
  - unfold s1. simpl. rewrite fmap_app. apply not_elem_of_app.
    split; [done|]. simpl. intros H. apply elem_of_cons in H as [->|H]; [lia|].
    by apply elem_of_nil in H.
Qed.

Lemma waiting_call_held :
  held_by_waiters_only 0 (call (OpExpect (ENum 0x01)) init).
Proof.
  split; simpl; try constructor; try lia.
  - apply map_Forall_empty.
  - intros H. by apply elem_of_nil in H.
Qed.

Lemma exhaustion_drops_pending_matchers_witness :
  mode (this (call (OpExpect (ENum 0x01)) init)) ≠ "binmode" ∧
  mode (this (call (OpExpect (ENum 0x01)) init)) ≠ "uart_bridge" ∧
  held_by_waiters_only 0 (call (OpExpect (ENum 0x01)) init) ∧
  ∃ st',
    steps (Call OpEnterBinmode :: replicate 26 (Tick 2)) (call (OpExpect (ENum 0x01)) init)
      = Some st' ∧
    waiters st' = [] ∧
    settled st' = [(1, Rejected (VError "cannot acquire binary mode"))] ∧
    ∀ evs st'', steps evs st' = Some st'' → 0 ∉ (settled st'').*1.
Proof.
  assert (H1 : mode (this (call (OpExpect (ENum 0x01)) init)) ≠ "binmode") by discriminate.
  assert (H2 : mode (this (call (OpExpect (ENum 0x01)) init)) ≠ "uart_bridge") by discriminate.
  split; [exact H1|]. split; [exact H2|]. split; [exact waiting_call_held|].
  exact (exhaustion_drops_pending_matchers (call (OpExpect (ENum 0x01)) init) 0
           H1 H2 waiting_call_held).
Defined.

(** C4 as stated fails: the matcher of call 0 is pending when the
    acquisition (call 1) gives up; afterwards it is gone from the array and
    no outcome has been filed for it. *)
Lemma pending_matcher_left_unresolved :
  (∃ st25,
     steps (Call (OpExpect (ENum 0x01)) :: Call OpEnterBinmode :: replicate 25 (Tick 2)) init
       = Some st25 ∧
     w_pid <$> waiters st25 = [Some 1; Some 0] ∧
     settled st25 = []) ∧
  (∃ st26,
     steps (Call (OpExpect (ENum 0x01)) :: Call OpEnterBinmode :: replicate 26 (Tick 2)) init
       = Some st26 ∧
     waiters st26 = [] ∧
     settled st26 = [(1, Rejected (VError "cannot acquire binary mode"))] ∧
     0 ∉ (settled st26).*1).
Proof.
  split.
  - eexists. split; [by vm_compute|]. by vm_compute.
  - eexists. split; [by vm_compute|]. split_and!; [by vm_compute|by vm_compute|].
    vm_compute. intros H. apply elem_of_cons in H as [H|H]; [done|]. by apply elem_of_nil in H.
Qed.

(** ** UART block writes *)

Lemma write_block_too_long buffer this :
  16 < block_length buffer →
  write_block buffer this = Plain (VError "Cannot send more than 16 bytes at once").
Proof.
  intros H. unfold write_block.
  by destruct (Nat.ltb_spec 16 (block_length buffer)) as [_|?]; [|lia].
Qed.

Lemma write_block_not_started buffer this :
  block_length buffer ≤ 16 →
  started this = false →
  write_block buffer this = Plain (VError "Uart must be started before writing").
Proof.
  intros H Hs. unfold write_block.
  destruct (Nat.ltb_spec 16 (block_length buffer)) as [?|_]; [lia|].
  by rewrite Hs.
Qed.

(** C7 on the code: both guards [return new Error(...)].  A direct caller
    of [write_block] is handed the error object as the plain value of the
    call, with no promise to reject; and [write], which calls [write_block]
    from a [then] callback, is fulfilled with the error object: with the
    driver not started, [uart.write("hello")] ends as a success whose value
    is the error, and nothing has been written. *)
Theorem write_block_returns_the_error :
  write_block (BBuf (replicate 17 x00)) (set_started true (this init))
    = Plain (VError "Cannot send more than 16 bytes at once") ∧
  write_block (BStr "hello") (this init)
    = Plain (VError "Uart must be started before writing") ∧
  settled (call (OpUartWriteBlock (BStr "hello")) init)
    = [(0, Returned (VError "Uart must be started before writing"))] ∧
  settled (call (OpUartWrite "hello") init)
    = [(0, Fulfilled (VError "Uart must be started before writing"))] ∧
  trace (call (OpUartWrite "hello") init) = [].
Proof. repeat split. Qed.

(** Appending one by one, the shape in which a history grows. *)
Lemma foldl_snoc_app {A} (l k : list A) : foldl (λ t e, t ++ [e]) l k = l ++ k.
Proof.
  revert l. induction k as [|x k IH]; intros l; simpl.
  - by rewrite app_nil_r.
  - by rewrite IH, <- app_assoc.
Qed.

(** Evaluates a run of [uart.write] from a session whose mode is known
    not to be the bridge ([Hm]), with the histories in the shape above. *)
Ltac settle_write :=
  cbn [steps step take write_20_events Nat.eqb];
  rewrite <- ?(foldl_snoc_app (A := effect)), <- ?(foldl_snoc_app (A := nat * outcome));
  unfold call; cbn [invoke run uart_write fresh this mode];
  match goal with Hm : (_ =? "uart_bridge")%string = false |- _ => rewrite Hm end;
  eexists; split; [vm_compute; reflexivity|];
  repeat split; vm_compute; reflexivity.

(** C8: with the driver started and the session not in bridge mode,
    [uart.write] of 20 bytes sends the command byte [0x1f], waits for one
    [0x01], sends the first 16 bytes, waits for 16 [0x01], then the same
    with [0x13] and the last 4 bytes, each step taken only once the step
    before is done, and is then fulfilled; a write that fails in the first
    block rejects the call there and leaves nothing of it behind, so the
    second block is never written. *)
Theorem uart_write_20_bytes (payload : string) (st : session) :
  String.length payload = 20 →
  started (this st) = true →
  mode (this st) ≠ "uart_bridge" →
  waiters st = [] →
  data_buffer st = [] →
  writes st = [] →
  (∀ n, n ≤ 8 →
     ∃ st', steps (Call (OpUartWrite payload) :: take n write_20_events) st = Some st' ∧
       trace st' = trace st ++ take (S n) (write_20_effects payload) ∧
       settled st' = settled st ++
         (if n =? 8 then [(next_id st, Fulfilled (VBuffer (replicate 4 x01)))] else [])) ∧
  (∀ e,
     ∃ st', steps [Call (OpUartWrite payload); Written (Some e)] st = Some st' ∧
       trace st' = trace st ++ take 1 (write_20_effects payload) ∧
       settled st' = settled st ++ [(next_id st, Rejected e)] ∧
       waiters st' = [] ∧ writes st' = []) ∧
  (∀ e,
     ∃ st', steps [Call (OpUartWrite payload); Written None; Data [x01]; Written (Some e)] st
              = Some st' ∧
       trace st' = trace st ++ take 3 (write_20_effects payload) ∧
       settled st' = settled st ++ [(next_id st, Rejected e)] ∧
       waiters st' = [] ∧ writes st' = []).
Proof.
  intros Hlen Hst Hm Hw Hb Hwr.
  do 20 (destruct payload as [|? payload]; [discriminate|]).
  destruct payload; [|discriminate]. clear Hlen.
  destruct st as [[m s e se] buf ws wr iv to tr em se' nid].
  simpl in Hst, Hm, Hw, Hb, Hwr. subst s ws buf wr.
  apply String.eqb_neq in Hm.
  split_and!.
  - intros n Hn.
    do 9 (destruct n as [|n]; [by settle_write|]).
    lia.
  - intros err. by settle_write.
  - intros err. by settle_write.
Qed.

Lemma uart_write_20_bytes_witness :
  String.length "0123456789abcdefghij" = 20 ∧
  started (this uart_ready) = true ∧
  mode (this uart_ready) ≠ "uart_bridge" ∧
  ∃ st',
    steps (Call (OpUartWrite "0123456789abcdefghij") :: write_20_events) uart_ready = Some st' ∧
    trace st' = [Sent (OArr [0x1f%Z]); Awaited [x01];
                 Sent (OStr "0123456789abcdef"); Awaited (replicate 16 x01);
                 Sent (OArr [0x13%Z]); Awaited [x01];
                 Sent (OStr "ghij"); Awaited (replicate 4 x01)] ∧
    settled st' = [(0, Fulfilled (VBuffer (replicate 4 x01)))].
Proof.
  assert (Hm : mode (this uart_ready) ≠ "uart_bridge") by discriminate.
  split; [reflexivity|]. split; [reflexivity|]. split; [exact Hm|].
  destruct (uart_write_20_bytes "0123456789abcdefghij" uart_ready
              eq_refl eq_refl Hm eq_refl eq_refl eq_refl) as (H & _ & _).
  exact (H 8 (le_n 8)).
Defined.

(** ** Bridge mode *)

Lemma keeps_bridge_bind p f :
  keeps_bridge p → (∀ v, keeps_bridge (f v)) → keeps_bridge (bind p f).
Proof.
  intros Hp Hf. revert Hp.
  induction p as [v|e|tx k IH|d k IH|k IH|rj IHr k IH|tid k IH|k IH|g k IH|n k IH];
    simpl; try (intros [H1 H2]; split); auto.
Qed.

Lemma keeps_bridge_catch p h :
  keeps_bridge p → (∀ e, keeps_bridge (h e)) → keeps_bridge (catch p h).
Proof.
  intros Hp Hh. revert Hp.
  induction p as [v|e|tx k IH|d k IH|k IH|rj IHr k IH|tid k IH|k IH|g k IH|n k IH];
    simpl; try (intros [H1 H2]; split); auto.
Qed.

Lemma keeps_bridge_write data : keeps_bridge (write data).
Proof. intros [e|]; exact I. Qed.

Lemma keeps_bridge_expect data : keeps_bridge (expect data).
Proof. intros d. exact I. Qed.

Lemma keeps_bridge_reset_console : keeps_bridge reset_console.
Proof. apply keeps_bridge_bind; [apply keeps_bridge_write|done]. Qed.

(** The guards at the head of the operations: in bridge mode they return
    at once. *)
Lemma keeps_bridge_enter_binmode : keeps_bridge enter_binmode.
Proof.
  intros this Hb. unfold bridged in Hb. rewrite Hb. simpl. exact I.
Qed.

Lemma keeps_bridge_switch_mode newmode : keeps_bridge (switch_mode newmode).
Proof.
  intros this Hb. unfold bridged in Hb. rewrite Hb. simpl. exact I.
Qed.

Lemma keeps_bridge_config_periph opts : keeps_bridge (config_periph opts).
Proof.
  unfold config_periph. apply keeps_bridge_catch; [|done].
  repeat apply keeps_bridge_bind;
    auto using keeps_bridge_write, keeps_bridge_expect; done.
Qed.

Lemma keeps_bridge_setopts_started options : keeps_bridge (setopts_started options).
Proof.
  unfold setopts_started. split; [done|].
  apply keeps_bridge_catch; [|done].
  repeat apply keeps_bridge_bind;
    auto using keeps_bridge_write, keeps_bridge_expect; done.
Qed.

Lemma keeps_bridge_start options : keeps_bridge (start options).
Proof.
  unfold start. apply keeps_bridge_catch; [|done].
  apply keeps_bridge_bind; [apply keeps_bridge_switch_mode|].
  intros [| |m| |]; try done.
  repeat case_match; try done.
  split; [done|]. apply keeps_bridge_setopts_started.
Qed.

Lemma keeps_bridge_setopts options : keeps_bridge (setopts options).
Proof.
  intros this _. case_match; [apply keeps_bridge_start|apply keeps_bridge_setopts_started].
Qed.

Lemma keeps_bridge_echo_rx on : keeps_bridge (echo_rx on).
Proof.
  intros this Hb. unfold bridged in Hb. rewrite Hb. simpl. exact I.
Qed.

Lemma keeps_bridge_uart_bridge : keeps_bridge uart_bridge.
Proof.
  intros this Hb. unfold bridged in Hb. rewrite Hb. simpl. exact I.
Qed.

Lemma keeps_bridge_write_block buffer this :
  keeps_bridge (then_return (write_block buffer this)).
Proof.
  unfold write_block. repeat case_match; try done. cbn [then_return].
  repeat apply keeps_bridge_bind;
    auto using keeps_bridge_write, keeps_bridge_expect.
Qed.

Lemma keeps_bridge_uart_write buffer : keeps_bridge (uart_write buffer).
Proof.
  intros this Hb. unfold bridged in Hb. rewrite Hb. simpl. intros [e|]; exact I.
Qed.

(** Every call a user can make leaves the bridge mode alone. *)
Lemma keeps_bridge_invoke op this : keeps_bridge (then_return (invoke op this)).
Proof.
  destruct op; cbn [invoke then_return].
  - apply keeps_bridge_write.
  - apply keeps_bridge_expect.
  - apply keeps_bridge_reset_console.
  - apply keeps_bridge_enter_binmode.
  - apply keeps_bridge_switch_mode.
  - apply keeps_bridge_config_periph.
  - apply keeps_bridge_start.
  - apply keeps_bridge_setopts.
  - apply keeps_bridge_echo_rx.
  - apply keeps_bridge_uart_bridge.
  - apply keeps_bridge_write_block.
  - apply keeps_bridge_uart_write.
Qed.

Lemma settle_in_bridge pid o st : in_bridge st → in_bridge (settle pid o st).
Proof. intros [Hb [? ? ? ?]]. by destruct pid. Qed.

Lemma emit_in_bridge n st : in_bridge st → in_bridge (emit n st).
Proof.
  intros [Hb [? ? ? ?]]. unfold emit. cbv zeta.
  destruct n; simpl; repeat case_match; done.
Qed.

Lemma run_in_bridge pid p : ∀ st, keeps_bridge p → in_bridge st → in_bridge (run pid p st).
Proof.
  induction p as [v|e|tx k IH|d k IH|k IH|rj IHr k IH|tid k IH|k IH|f k IH|n k IH];
    intros st Hp Hst; simpl in *.
  - by apply settle_in_bridge.
  - by apply settle_in_bridge.
  - destruct Hst as [Hb [? ? ? ?]]. split; [done|]. split; simpl; try done.
    apply Forall_app. split; [done|]. by constructor.
  - destruct Hst as [Hb [? ? ? ?]]. split; [done|]. split; simpl; try done.
    by constructor.
  - destruct Hst as [Hb [? ? ? ?]]. split; [done|]. split; simpl; try done.
    apply Forall_app. split; [done|]. by constructor.
  - destruct Hp as [Hr Hk]. apply IH; [done|].
    destruct Hst as [Hb [? ? ? ?]]. split; [done|]. split; simpl; try done.
    by apply map_Forall_insert_2.
  - apply IH; [done|].
    destruct Hst as [Hb [? ? ? ?]]. split; [done|]. split; simpl; try done.
    by apply map_Forall_delete.
  - apply IH; [|done]. apply Hp. by destruct Hst.
  - destruct Hp as [Hf Hk]. apply IH; [done|].
    destruct Hst as [Hb [? ? ? ?]]. split; [by apply Hf|]. by split.
  - apply IH; [done|]. by apply emit_in_bridge.
Qed.

Lemma foldl_resume_in_bridge fired : ∀ st,
  (∀ f, f ∈ fired → ∀ d, keeps_bridge (w_then f.1 d)) →
  in_bridge st → in_bridge (foldl resume st fired).
Proof.
  induction fired as [|f fired IH]; intros st Hf Hst; simpl; [done|].
  apply IH.
  - intros f' Hf'. apply Hf. by right.
  - apply run_in_bridge; [|done]. apply Hf. by left.
Qed.

Lemma step_in_bridge ev st st' : in_bridge st → step ev st = Some st' → in_bridge st'.
Proof.
  intros Hst. destruct ev as [op|chunk|err|tid|]; simpl.
  - intros [= <-]. unfold call.
    assert (Hf : in_bridge (fresh st)) by (by destruct Hst as [Hb [? ? ? ?]]).
    pose proof (keeps_bridge_invoke op (this (fresh st))) as Hop.
    destruct (invoke op (this (fresh st))); simpl in Hop.
    + by apply run_in_bridge.
    + by apply settle_in_bridge.
  - unfold on_data. cbv zeta.
    pose proof (emit_in_bridge (NReceive chunk) st Hst) as He.
    destruct (0 <? length (waiters (emit (NReceive chunk) st))); [|by intros [= <-]].
    destruct (run_waiters _ _ _ _) as [[[ws buf] fired]|] eqn:Hrun; [|done].
    intros [= <-].
    apply run_waiters_sub in Hrun as (Hsub & fired' & -> & Hin). simpl in *.
    destruct He as [Hb [Hw ? ? ?]]. rewrite Forall_forall in Hw.
    apply foldl_resume_in_bridge.
    + intros f Hf. apply Hw. by apply Hin.
    + split; [done|]. split; simpl; try done.
      apply Forall_forall. intros w Hw'. apply Hw. by eapply elem_of_sublist.
  - destruct (writes st) as [|w ws] eqn:Hws; [done|]. intros [= <-].
    destruct Hst as [Hb [? Hwr ? ?]]. rewrite Hws in Hwr.
    apply Forall_cons in Hwr as [Hw Hwr].
    apply run_in_bridge; [done|]. split; [done|]. by split.
  - unfold tick. destruct (intervals st !! tid) as [iv|] eqn:Hiv; [|done]. cbv zeta.
    assert (Hrj : ∀ e, keeps_bridge (i_reject iv e)).
    { destruct Hst as [_ [_ _ Hi _]]. by eapply (Hi tid iv). }
    pose proof (run_in_bridge None (write (ONum 0)) st (keeps_bridge_write _) Hst)
      as [Hb [? ? ? ?]].
    case_match; intros [= <-].
    + apply run_in_bridge; [done|]. split; [done|]. split; simpl; try done.
      by apply map_Forall_delete.
    + split; [done|]. split; simpl; try done.
      by apply map_Forall_insert_2.
  - destruct (timeouts st) as [|t ts] eqn:Hts; [done|]. intros [= <-].
    destruct Hst as [Hb [? ? ? Hto]]. rewrite Hts in Hto.
    apply Forall_cons in Hto as [Ht Hto].
    apply run_in_bridge; [done|]. split; [done|]. by split.
Qed.

(** C10, as the code has it: once the session is in bridge mode, and
    provided no chain still suspended at that moment assigns a mode when it
    resumes, the mode stays the bridge mode whatever is called and whatever
    happens afterwards. *)
Theorem bridge_mode_is_final (evs : list event) (st st' : session) :
  mode (this st) = "uart_bridge" →
  pending_keep_bridge st →
  steps evs st = Some st' →
  mode (this st') = "uart_bridge".
Proof.
  intros Hb Hp. assert (Hst : in_bridge st) by done. clear Hb Hp.
  revert st Hst. induction evs as [|ev evs IH]; intros st Hst; simpl.
  - intros [= <-]. by destruct Hst.
  - destruct (step ev st) as [st1|] eqn:Hs; [|done].
    apply IH. by eapply step_in_bridge.
Qed.

Lemma bridge_session_pending : pending_keep_bridge bridge_session.
Proof. split; [constructor|constructor|apply map_Forall_empty|constructor]. Qed.

Lemma bridge_mode_is_final_witness :
  steps [Call OpUartBridge; Written None] binmode_session = Some bridge_session ∧
  mode (this bridge_session) = "uart_bridge" ∧
  pending_keep_bridge bridge_session ∧
  ∃ st', steps bridge_events bridge_session = Some st' ∧
         mode (this st') = "uart_bridge".
Proof.
  split; [reflexivity|]. split; [reflexivity|]. split; [exact bridge_session_pending|].
  eexists. split; [vm_compute; reflexivity|].
  apply (bridge_mode_is_final bridge_events bridge_session _ eq_refl bridge_session_pending).
  vm_compute. reflexivity.
Defined.

(** C10 as stated fails when a mode switch is in flight: [uart.start()]
    has sent the mode id and waits for ["ART1"]; [uart.uart_bridge()] then
    puts the session in bridge mode; when ["ART1"] arrives the waiting chain
    assigns ["uart"]. *)
Lemma mode_switch_in_flight_leaves_bridge :
  (∃ st,
     steps [Call (OpUartStart no_options); Written None;
            Call OpUartBridge; Written None] binmode_session = Some st ∧
     mode (this st) = "uart_bridge") ∧
  (∃ st,
     steps [Call (OpUartStart no_options); Written None;
            Call OpUartBridge; Written None; Data (bytes "ART1")] binmode_session = Some st ∧
     mode (this st) = "uart").
Proof.
  split; (eexists; split; [vm_compute; reflexivity|reflexivity]).
Qed.

(** In [start], [this.setopts(options)] right after [this.started = true]
    is [setopts] past its test. *)
Lemma start_calls_setopts pid options st :
  run pid (Put (set_started true) (setopts options)) st
  = run pid (Put (set_started true) (setopts_started options)) st.
Proof. reflexivity. Qed.

(** * Further properties of the engine *)

(** ** The exact comparison and the loop of the data handler *)

Lemma prefix_of_take (data recv : list byte) :
  data `prefix_of` recv ↔ take (length data) recv = data.
Proof.
  split.
  - intros [k ->]. apply take_app_length.
  - intros H. rewrite <- H. apply prefix_take.
Qed.

(** X1: a waiter for a pattern of at least one byte resolves exactly when
    the buffer starts with the pattern, with the pattern, and returns the
    buffer less those bytes; in every other case, a buffer shorter than the
    pattern included, it stays and returns the buffer as it came. *)
Theorem exact_waiter_matches_prefix (data recv : list byte) :
  data ≠ [] →
  waiter (CBuffer data) recv
  = if bool_decide (data `prefix_of` recv)
    then Found data (drop (length data) recv)
    else Keep recv.
Proof.
  intros Hne. case_bool_decide as Hp.
  - destruct Hp as [k ->]. by rewrite waiter_found, drop_app_length.
  - apply waiter_keep; [done|]. by rewrite <- prefix_of_take.
Qed.

Lemma exact_waiter_matches_prefix_witness :
  bytes "ART1" ≠ [] ∧
  waiter (CBuffer (bytes "ART1")) (bytes "ART1x") = Found (bytes "ART1") (bytes "x") ∧
  waiter (CBuffer (bytes "ART1")) (bytes "AR") = Keep (bytes "AR") ∧
  waiter (CBuffer (bytes "ART1")) (bytes "xART1") = Keep (bytes "xART1").
Proof.
  assert (H : bytes "ART1" ≠ []) by discriminate.
  split; [exact H|].
  split_and!.
  - exact (exact_waiter_matches_prefix (bytes "ART1") (bytes "ART1x") H).
  - exact (exact_waiter_matches_prefix (bytes "ART1") (bytes "AR") H).
  - exact (exact_waiter_matches_prefix (bytes "ART1") (bytes "xART1") H).
Defined.

Lemma run_waiters_perm n : ∀ ws buf fired ws' buf' out,
  run_waiters n ws buf fired = Some (ws', buf', out) →
  ∃ fired', out = fired ++ fired' ∧ ws' ++ fired'.*1 ≡ₚ ws.
Proof.
  induction n as [|n IH]; intros ws buf fired ws' buf' out; simpl.
  - intros [= <- <- <-]. exists []. by rewrite !app_nil_r.
  - destruct (ws !! n) as [w|] eqn:Hw; [|done].
    destruct (waiter (w_data w) buf) as [b|v b|]; [| |done].
    + apply IH.
    + intros Hrun. apply IH in Hrun as (fired' & -> & Hperm).
      exists ((w, v) :: fired'). rewrite <- app_assoc. split; [done|].
      simpl. rewrite <- Permutation_middle, Hperm.
      symmetry. by apply delete_Permutation.
Qed.

(** X2: the loop of the data handler, walking the array from its end while
    the waiters that resolve splice themselves out of it, always finds a
    waiter at its index; the array it leaves holds exactly the waiters that
    did not resolve, in the order they were in. *)
Theorem loop_removes_exactly_the_resolved (ws : list waiting) (buf : list byte) :
  Forall is_buffer ws →
  ∃ ws' buf' fired,
    run_waiters (length ws) ws buf [] = Some (ws', buf', fired) ∧
    ws' ++ fired.*1 ≡ₚ ws ∧
    ws' `sublist_of` ws.
Proof.
  intros Hws.
  destruct (run_waiters_spec (length ws) ws buf []) as (ws' & buf' & fired & Hrun & _ & Hsub & _);
    [done|done|].
  simpl in Hrun. exists ws', buf', fired. split; [done|]. split; [|done].
  apply run_waiters_perm in Hrun as (fired' & Heq & Hperm). simpl in Heq. by subst.
Qed.

Lemma loop_removes_exactly_the_resolved_witness :
  Forall is_buffer [expecting 1 (EStr "b"); expecting 0 (EStr "a")] ∧
  ∃ ws' buf' fired,
    run_waiters 2 [expecting 1 (EStr "b"); expecting 0 (EStr "a")] (bytes "ac") []
      = Some (ws', buf', fired) ∧
    ws' ++ fired.*1 ≡ₚ [expecting 1 (EStr "b"); expecting 0 (EStr "a")] ∧
    ws' `sublist_of` [expecting 1 (EStr "b"); expecting 0 (EStr "a")].
Proof.
  assert (H : Forall is_buffer [expecting 1 (EStr "b"); expecting 0 (EStr "a")]).
  { repeat constructor; by eexists. }
  split; [exact H|].
  exact (loop_removes_exactly_the_resolved
           [expecting 1 (EStr "b"); expecting 0 (EStr "a")] (bytes "ac") H).
Defined.

(** X3: a single matcher with a pattern of at least one byte, registered
    on an idle session, resolves, however the stream is cut into chunks,
    exactly when the stream received since then starts with the pattern.
    Bytes that do not match are never dropped from the front of the buffer,
    so noise ahead of the pattern keeps the matcher pending for good. *)
Theorem single_matcher_resolves_iff_stream_starts_with_pattern
    (d : expected) (chunks : list (list byte)) (st : session) :
  Buffer_from d ≠ [] →
  waiters st = [] →
  data_buffer st = [] →
  ∃ st', feed chunks (call (OpExpect d) st) = Some st' ∧
    settled st' = settled st ++
      if bool_decide (Buffer_from d `prefix_of` concat chunks)
      then [(next_id st, Fulfilled (VBuffer (Buffer_from d)))] else [].
Proof.
  intros Hne Hw Hb.
  assert (Hw1 : waiters (call (OpExpect d) st) = [expecting (next_id st) d]).
  { unfold call. simpl. by rewrite Hw. }
  assert (Hb0 : data_buffer (call (OpExpect d) st) = []) by done.
  destruct (feed_single (next_id st) d chunks _ Hne Hw1) as (st' & Hf & Hs).
  { rewrite Hb0, take_nil. done. }
  exists st'. split; [done|]. rewrite Hs, Hb0. simpl. f_equal.
  rewrite (bool_decide_ext _ _ (prefix_of_take (Buffer_from d) (concat chunks))). done.
Qed.

Lemma single_matcher_resolves_iff_stream_starts_with_pattern_witness :
  Buffer_from (EStr "BBIO1") ≠ [] ∧
  ∃ st', feed [bytes "x"; bytes "BBIO1"; bytes "BBIO1"] (call (OpExpect (EStr "BBIO1")) init)
           = Some st' ∧
         settled st' = [].
Proof.
  assert (H : Buffer_from (EStr "BBIO1") ≠ []) by discriminate.
  split; [exact H|].
  exact (single_matcher_resolves_iff_stream_starts_with_pattern
           (EStr "BBIO1") [bytes "x"; bytes "BBIO1"; bytes "BBIO1"] init H eq_refl eq_refl).
Defined.

(** ** Stepping a session *)

Lemma steps_cons ev evs st st1 :
  step ev st = Some st1 → steps (ev :: evs) st = steps evs st1.
Proof. intros H. simpl. by rewrite H. Qed.

Lemma step_Written w ws err st :
  writes st = w :: ws →
  step (Written err) st = Some (run (pw_pid w) (pw_then w err) (with_writes (λ _, ws) st)).
Proof. intros H. simpl. by rewrite H. Qed.

Lemma step_Elapsed t ts st :
  timeouts st = t :: ts →
  step Elapsed st = Some (run (t_pid t) (t_then t) (with_timeouts (λ _, ts) st)).
Proof. intros H. simpl. by rewrite H. Qed.

(** A chunk that completes the pattern of the only waiter. *)
Lemma step_Data_one chunk w p rest st :
  waiters st = [w] →
  w_data w = CBuffer p →
  p ≠ [] →
  data_buffer st ++ chunk = p ++ rest →
  step (Data chunk) st
  = Some (run (w_pid w) (w_then w p) (with_matcher [] rest (emit (NReceive chunk) st))).
Proof.
  intros Hw Hd Hp Hsplit. simpl. unfold on_data. cbv zeta.
  rewrite !emit_waiters, emit_data_buffer, Hw. simpl.
  by rewrite Hd, Hsplit, waiter_found.
Qed.

Lemma emit_mode n st : mode (this (emit n st)) = mode (this st).
Proof. unfold emit. cbv zeta. destruct n; simpl; repeat case_match; done. Qed.

Lemma emit_started n st :
  started (this (emit n st))
  = match n with
    | NMode m => if String.eqb m "uart" then started (this st) else false
    | _ => started (this st)
    end.
Proof. unfold emit. cbv zeta. destruct n; simpl; repeat case_match; done. Qed.

Lemma emit_echo_rx_on n st : echo_rx_on (this (emit n st)) = echo_rx_on (this st).
Proof. unfold emit. cbv zeta. destruct n; simpl; repeat case_match; done. Qed.

Lemma emit_settings n st : settings (this (emit n st)) = settings (this st).
Proof. unfold emit. cbv zeta. destruct n; simpl; repeat case_match; done. Qed.

Lemma emit_trace n st : trace (emit n st) = trace st.
Proof. unfold emit. cbv zeta. destruct n; simpl; repeat case_match; done. Qed.

Lemma emit_writes n st : writes (emit n st) = writes st.
Proof. unfold emit. cbv zeta. destruct n; simpl; repeat case_match; done. Qed.

Lemma emit_intervals n st : intervals (emit n st) = intervals st.
Proof. unfold emit. cbv zeta. destruct n; simpl; repeat case_match; done. Qed.

Lemma emit_timeouts n st : timeouts (emit n st) = timeouts st.
Proof. unfold emit. cbv zeta. destruct n; simpl; repeat case_match; done. Qed.

Lemma emit_next_id n st : next_id (emit n st) = next_id st.
Proof. unfold emit. cbv zeta. destruct n; simpl; repeat case_match; done. Qed.

(** What the listeners of the [Uart] add to an event. *)
Lemma emit_emitted n st :
  emitted (emit n st)
  = emitted st ++ n ::
      match n with
      | NReceive data => if started (this st) then [NUartData data] else []
      | _ => []
      end.
Proof.
  unfold emit. cbv zeta. destruct n; simpl; repeat case_match; simpl;
    by rewrite <- ?app_assoc.
Qed.

(** Rewrites the projections of a session after [emit]. *)
Ltac emit_simpl :=
  rewrite ?emit_mode, ?emit_started, ?emit_echo_rx_on, ?emit_settings, ?emit_trace,
    ?emit_writes, ?emit_intervals, ?emit_timeouts, ?emit_next_id, ?emit_settled,
    ?emit_waiters, ?emit_data_buffer, ?emit_emitted.

(** ** Binary-mode acquisition that succeeds *)

(** X4: when ["BBIO1"] arrives after [k] probes, 25 at most, of an
    acquisition started on an idle session, the call is fulfilled, the mode
    is ["binmode"], the UART driver is no longer started, [k] probes and no
    more have been written and the timer is cleared: no probe follows. *)
Theorem enter_binmode_acquires_after_probes (st : session) (k : nat) :
  mode (this st) ≠ "binmode" →
  mode (this st) ≠ "uart_bridge" →
  waiters st = [] →
  data_buffer st = [] →
  k ≤ 25 →
  ∃ st',
    steps (Call OpEnterBinmode :: replicate k (Tick (S (next_id st)))
             ++ [Data (bytes "BBIO1")]) st = Some st' ∧
    settled st' = settled st ++ [(next_id st, Fulfilled (VBool true))] ∧
    mode (this st') = "binmode" ∧
    started (this st') = false ∧
    trace st' = trace st ++ Awaited (bytes "BBIO1") :: replicate k probe ∧
    waiters st' = [] ∧
    step (Tick (S (next_id st))) st' = None.
Proof.
  intros Hb Hu Hw Hbuf Hk.
  apply String.eqb_neq in Hb, Hu.
  cbn [steps step]. unfold call. cbn [invoke]. unfold enter_binmode.
  cbn [run fresh this]. rewrite Hb, Hu. cbn [orb run bind expect fresh next_id].
  match goal with |- context [steps _ ?s] => set (s1 := s) end.
  assert (Hi : intervals s1 !! S (next_id st)
               = Some {| i_count := 0; i_pid := Some (next_id st); i_reject := λ e, Reject e |}).
  { unfold s1. cbn. by rewrite lookup_insert_eq. }
  destruct (ticks_below (S (next_id st)) k s1 _ Hi)
    as (sk & Hs & Hik & Htk & _ & Hwk & Hsk & Hpk & _ & _ & Hbk); [simpl; lia|].
  rewrite steps_app, Hs.
  erewrite steps_cons; last first.
  { eapply (step_Data_one _ _ (bytes "BBIO1") []).
    - rewrite Hwk. unfold s1. simpl. by rewrite Hw.
    - done.
    - done.
    - rewrite Hbk. unfold s1. simpl. by rewrite Hbuf. }
  eexists. split; [done|]. simpl. emit_simpl. simpl.
  rewrite Hsk, Htk. unfold tick. simpl. rewrite lookup_delete_eq.
  unfold s1. simpl. by rewrite <- app_assoc.
Qed.

Lemma enter_binmode_acquires_after_probes_witness :
  mode (this uart_ready) ≠ "binmode" ∧
  mode (this uart_ready) ≠ "uart_bridge" ∧
  3 ≤ 25 ∧
  ∃ st',
    steps (Call OpEnterBinmode :: replicate 3 (Tick 1) ++ [Data (bytes "BBIO1")]) uart_ready
      = Some st' ∧
    settled st' = [(0, Fulfilled (VBool true))] ∧
    mode (this st') = "binmode" ∧
    started (this st') = false ∧
    trace st' = Awaited (bytes "BBIO1") :: replicate 3 probe ∧
    waiters st' = [] ∧
    step (Tick 1) st' = None.
Proof.
  assert (H1 : mode (this uart_ready) ≠ "binmode") by discriminate.
  assert (H2 : mode (this uart_ready) ≠ "uart_bridge") by discriminate.
  assert (H3 : 3 ≤ 25) by lia.
  split; [exact H1|]. split; [exact H2|]. split; [exact H3|].
  exact (enter_binmode_acquires_after_probes uart_ready 3 H1 H2 eq_refl eq_refl H3).
Defined.

(** ** Handshakes *)

Lemma bytes_nonempty s : s ≠ ""%string → bytes s ≠ [].
Proof. by destruct s. Qed.

Lemma step_Call op st : step (Call op) st = Some (call op st).
Proof. done. Qed.

Lemma steps_nil st : steps [] st = Some st.
Proof. done. Qed.

(** [emit] field by field. *)
Lemma emit_eq n st :
  emit n st =
  {| this :=
       {| mode := mode (this st);
          started := match n with
                     | NMode m => if String.eqb m "uart" then started (this st) else false
                     | _ => started (this st)
                     end;
          echo_rx_on := echo_rx_on (this st);
          settings := settings (this st) |};
     data_buffer := data_buffer st; waiters := waiters st; writes := writes st;
     intervals := intervals st; timeouts := timeouts st; trace := trace st;
     emitted := emitted st ++ n ::
                  match n with
                  | NReceive data => if started (this st) then [NUartData data] else []
                  | _ => []
                  end;
     settled := settled st; next_id := next_id st |}.
Proof.
  destruct st as [[m s e se] buf ws wr iv to tr em se' nid].
  unfold emit. cbv zeta.
  change (MODE_NAME uart_constants) with "uart"%string.
  destruct n as [d|m'| | | | | |]; unfold notify; simpl; try done.
  - destruct s; unfold notify; simpl; by rewrite <- ?app_assoc.
  - by destruct (String.eqb m' "uart").
Qed.

#[local] Arguments steps : simpl never.
#[local] Arguments step : simpl never.
#[local] Arguments bytes : simpl never.

(** Brings the session under [steps] to the form of a record, field by
    field. *)
Ltac reduce_state :=
  match goal with
  | |- context [steps _ ?T] =>
      let T1 := eval unfold call in T in
      let T2 := eval cbn in T1 in
      let T3 := eval cbv [with_this with_matcher with_writes with_intervals
                          with_timeouts record notify fresh settle
                          this data_buffer waiters writes intervals timeouts
                          trace emitted settled next_id] in T2 in
      let T' := eval cbn in T3 in
      progress (replace T with T' by (vm_compute; reflexivity))
  end.

Ltac norm_state := repeat (first [rewrite emit_eq | reduce_state]).

(** Takes the next event of [steps] with the given lemma for [step]. *)
Ltac next_step lem :=
  erewrite steps_cons; [|eapply lem; simpl; try reflexivity; try done];
  norm_state.

(** Takes as the next event a chunk that starts with the pattern [p] of
    the only waiter and goes on with [rest]. *)
Ltac next_data p rest :=
  erewrite steps_cons;
    [|eapply (step_Data_one _ _ p rest); simpl; try reflexivity; try done];
  [norm_state|..].

(** Takes a call as the next event and runs it to its first suspension. *)
Ltac next_call :=
  erewrite steps_cons; [|apply step_Call]; norm_state.

(** The session at the end of the events. *)
Ltac last_state :=
  rewrite steps_nil; eexists; split; [reflexivity|]; simpl.

(** An idle session, field by field. *)
Ltac idle_session st H :=
  destruct st as [[?m ?s ?e ?se] ?buf ?ws ?wr ?iv ?to ?tr ?em ?se' ?nid];
  destruct H as (? & ? & ?); simpl in *; simplify_eq.

(** X5: [switch_mode], called in binary mode on an idle session, writes the
    mode id and waits for the acknowledgment; the mode is assigned, and
    ['mode'] emitted, only when the acknowledgment has arrived, and a mode
    other than ["uart"] stops the UART driver.  If the write fails the call
    is rejected with the error and the mode is left as it was. *)
Theorem switch_mode_commits_on_ack (newmode : constants) (st : session) :
  mode (this st) = "binmode" →
  idle st →
  MODE_ACK newmode ≠ ""%string →
  (∃ st1,
     steps [Call (OpSwitchMode newmode); Written None] st = Some st1 ∧
     mode (this st1) = "binmode" ∧
     settled st1 = settled st ∧
     trace st1 = trace st ++ [Sent (OArr [MODE_ID newmode]);
                              Awaited (bytes (MODE_ACK newmode))]) ∧
  (∃ st2,
     steps [Call (OpSwitchMode newmode); Written None;
            Data (bytes (MODE_ACK newmode))] st = Some st2 ∧
     mode (this st2) = MODE_NAME newmode ∧
     started (this st2)
       = (if String.eqb (MODE_NAME newmode) "uart" then started (this st) else false) ∧
     settled st2 = settled st ++ [(next_id st, Fulfilled (VString (MODE_NAME newmode)))] ∧
     last (emitted st2) = Some (NMode (MODE_NAME newmode)) ∧
     waiters st2 = [] ∧ data_buffer st2 = []) ∧
  (∀ e,
     ∃ st3,
       steps [Call (OpSwitchMode newmode); Written (Some e)] st = Some st3 ∧
       mode (this st3) = "binmode" ∧
       settled st3 = settled st ++ [(next_id st, Rejected e)] ∧
       trace st3 = trace st ++ [Sent (OArr [MODE_ID newmode])] ∧
       waiters st3 = [] ∧ writes st3 = []).
Proof.
  intros Hm Hi Hack.
  destruct newmode as [id name ack].
  idle_session st Hi.
  apply bytes_nonempty in Hack.
  split_and!.
  - next_call. next_step step_Written. last_state.
    by rewrite <- app_assoc.
  - next_call. next_step step_Written.
    next_data (bytes ack) (@nil byte).
    2: by rewrite app_nil_r.
    last_state.
    split_and!; try done. by rewrite last_snoc.
  - intros err. next_call. next_step step_Written. last_state. done.
Qed.

Lemma switch_mode_commits_on_ack_witness :
  ∃ st2,
    steps [Call (OpSwitchMode uart_constants); Written None; Data (bytes "ART1")]
      binmode_session = Some st2 ∧
    mode (this st2) = "uart" ∧
    settled st2 = [(0, Fulfilled (VString "uart"))].
Proof.
  assert (Hi : idle binmode_session) by (by split_and!).
  assert (Hack : MODE_ACK uart_constants ≠ ""%string) by discriminate.
  destruct (switch_mode_commits_on_ack uart_constants binmode_session eq_refl Hi Hack)
    as (_ & (st2 & H2 & Hmode & _ & Hs & _) & _).
  exists st2. split; [exact H2|]. split; [exact Hmode|exact Hs].
Defined.

(** A call that returns a promise runs its chain under a fresh id. *)
Lemma call_promise op p st :
  (∀ this, invoke op this = Promise p) →
  call op st = run (Some (next_id st)) p (fresh st).
Proof. intros H. unfold call. cbv zeta. by rewrite H. Qed.

(** Takes a call as the next event and leaves its chain [p] to be run. *)
Ltac next_call_of p :=
  erewrite steps_cons; [|apply step_Call];
  rewrite (call_promise _ p) by done.

(** X6: [config_periph] on an idle session writes the configuration byte
    and waits for [01]; when the acknowledgment arrives ['peripherals'] is
    emitted with the byte.  A failed write is caught: the promise is
    fulfilled with [undefined] exactly as on success, and only the missing
    ['peripherals'] event tells the two apart. *)
Theorem config_periph_swallows_write_error (opts : gmap string bool) (st : session) :
  idle st →
  (∃ st1,
     steps [Call (OpConfigPeriph opts); Written None; Data [x01]] st = Some st1 ∧
     settled st1 = settled st ++ [(next_id st, Fulfilled VUndefined)] ∧
     last (emitted st1) = Some (NPeripherals (config_code opts)) ∧
     trace st1 = trace st ++ [Sent (OArr [config_code opts]); Awaited [x01]] ∧
     waiters st1 = [] ∧ data_buffer st1 = []) ∧
  (∀ e,
     ∃ st2,
       steps [Call (OpConfigPeriph opts); Written (Some e)] st = Some st2 ∧
       settled st2 = settled st ++ [(next_id st, Fulfilled VUndefined)] ∧
       emitted st2 = emitted st ∧
       trace st2 = trace st ++ [Sent (OArr [config_code opts])] ∧
       waiters st2 = [] ∧ writes st2 = []).
Proof.
  intros Hi. idle_session st Hi.
  split; [|intros err]; next_call_of (config_periph opts);
    unfold config_periph; generalize (config_code opts); intros code; norm_state.
  - next_step step_Written. next_data [x01] (@nil byte). last_state.
    split_and!; try done; [by rewrite last_snoc|by rewrite <- app_assoc].
  - next_step step_Written. last_state. done.
Qed.

Lemma config_periph_swallows_write_error_witness :
  ∃ st2,
    steps [Call (OpConfigPeriph ∅); Written (Some (VError "closed"))] binmode_session
      = Some st2 ∧
    settled st2 = [(0, Fulfilled VUndefined)] ∧
    emitted st2 = [].
Proof.
  assert (Hi : idle binmode_session) by (by split_and!).
  destruct (config_periph_swallows_write_error ∅ binmode_session Hi) as (_ & H).
  destruct (H (VError "closed")) as (st2 & H2 & Hs & He & _).
  exists st2. split; [exact H2|]. split; [exact Hs|exact He].
Defined.

(** ** The console reset *)

(** The fields of a session. *)
Ltac session_fields st :=
  destruct st as [[?m ?s ?e ?se] ?buf ?ws ?wr ?iv ?to ?tr ?em ?se' ?nid];
  simpl in *; simplify_eq.

(** X7: [reset_console] writes ten carriage returns and [#]; the timer is
    armed by the callback of the write, not before, and the promise is
    fulfilled when the timer fires.  A failed write rejects the promise and
    arms no timer.  Waiters and buffered bytes are left as they are: nothing
    is drained. *)
Theorem reset_console_waits_for_write_then_timer (st : session) :
  writes st = [] →
  timeouts st = [] →
  step Elapsed (call OpResetConsole st) = None ∧
  (∃ st1,
     steps [Call OpResetConsole; Written None] st = Some st1 ∧
     settled st1 = settled st ∧
     trace st1 = trace st ++ [Sent (OArr (replicate 10 0x0d%Z ++ [0x23%Z]))]) ∧
  (∃ st2,
     steps [Call OpResetConsole; Written None; Elapsed] st = Some st2 ∧
     settled st2 = settled st ++ [(next_id st, Fulfilled (VBool true))] ∧
     timeouts st2 = [] ∧
     waiters st2 = waiters st ∧ data_buffer st2 = data_buffer st) ∧
  (∀ e,
     ∃ st3,
       steps [Call OpResetConsole; Written (Some e)] st = Some st3 ∧
       settled st3 = settled st ++ [(next_id st, Rejected e)] ∧
       timeouts st3 = []).
Proof.
  intros Hw Ht. session_fields st.
  split_and!.
  - done.
  - next_call. next_step step_Written. last_state. done.
  - next_call. next_step step_Written. next_step step_Elapsed. last_state. done.
  - intros err. next_call. next_step step_Written. last_state. done.
Qed.

Lemma reset_console_waits_for_write_then_timer_witness :
  ∃ st2,
    steps [Call OpResetConsole; Written None; Elapsed] init = Some st2 ∧
    settled st2 = [(0, Fulfilled (VBool true))].
Proof.
  destruct (reset_console_waits_for_write_then_timer init eq_refl eq_refl)
    as (_ & _ & (st2 & H2 & Hs & _) & _).
  exists st2. split; [exact H2|exact Hs].
Defined.

(** ** The operations of the UART driver *)

(** Runs the test of [this.bp.mode] at the head of a chain, with [Hm] for
    the outcome of the comparison. *)
Ltac not_bridge Hm :=
  cbn [run fresh this mode started]; rewrite Hm; norm_state.

(** X8: [echo_rx], outside bridge mode, writes [0x02] to switch the echo on
    and [0x03] to switch it off, and waits for [01]; [echo_rx_on] is
    assigned, and ['rx_echo'] emitted, only when the acknowledgment has
    arrived.  A failed write rejects the call and leaves the flag. *)
Theorem echo_rx_sets_flag_on_ack (on : bool) (st : session) :
  mode (this st) ≠ "uart_bridge" →
  idle st →
  (∃ st1,
     steps [Call (OpUartEchoRx on); Written None] st = Some st1 ∧
     echo_rx_on (this st1) = echo_rx_on (this st) ∧
     settled st1 = settled st ∧
     trace st1 = trace st ++ [Sent (OArr [if on then 0x02 else 0x03]%Z); Awaited [x01]]) ∧
  (∃ st2,
     steps [Call (OpUartEchoRx on); Written None; Data [x01]] st = Some st2 ∧
     echo_rx_on (this st2) = on ∧
     settled st2 = settled st ++ [(next_id st, Fulfilled (VBool true))] ∧
     last (emitted st2) = Some (NRxEcho on)) ∧
  (∀ e,
     ∃ st3,
       steps [Call (OpUartEchoRx on); Written (Some e)] st = Some st3 ∧
       echo_rx_on (this st3) = echo_rx_on (this st) ∧
       settled st3 = settled st ++ [(next_id st, Rejected e)] ∧
       emitted st3 = emitted st).
Proof.
  intros Hm Hi. apply String.eqb_neq in Hm. idle_session st Hi.
  split_and!; [| |intros err]; next_call_of (echo_rx on); unfold echo_rx;
    not_bridge Hm.
  - next_step step_Written. last_state. by rewrite <- app_assoc.
  - next_step step_Written. next_data [x01] (@nil byte). last_state.
    split_and!; try done. by rewrite last_snoc.
  - next_step step_Written. last_state. done.
Qed.

Lemma echo_rx_sets_flag_on_ack_witness :
  ∃ st2,
    steps [Call (OpUartEchoRx true); Written None; Data [x01]] uart_ready = Some st2 ∧
    echo_rx_on (this st2) = true.
Proof.
  assert (Hm : mode (this uart_ready) ≠ "uart_bridge") by discriminate.
  assert (Hi : idle uart_ready) by (by split_and!).
  destruct (echo_rx_sets_flag_on_ack true uart_ready Hm Hi)
    as (_ & (st2 & H2 & He & _) & _).
  exists st2. split; [exact H2|exact He].
Defined.

(** X9: [uart_bridge], outside bridge mode, writes [0x0f] and waits for no
    acknowledgment: the callback of the write assigns the mode and emits
    ['uart_bridge'].  No ['mode'] event is emitted, so the driver's
    [started] is left as it was.  A failed write rejects the call and leaves
    the mode. *)
Theorem uart_bridge_awaits_no_ack (st : session) :
  mode (this st) ≠ "uart_bridge" →
  writes st = [] →
  (∃ st1,
     steps [Call OpUartBridge; Written None] st = Some st1 ∧
     mode (this st1) = "uart_bridge" ∧
     started (this st1) = started (this st) ∧
     settled st1 = settled st ++ [(next_id st, Fulfilled (VBool true))] ∧
     emitted st1 = emitted st ++ [NUartBridge] ∧
     trace st1 = trace st ++ [Sent (OArr [0x0f%Z])] ∧
     waiters st1 = waiters st) ∧
  (∀ e,
     ∃ st2,
       steps [Call OpUartBridge; Written (Some e)] st = Some st2 ∧
       mode (this st2) = mode (this st) ∧
       settled st2 = settled st ++ [(next_id st, Rejected e)] ∧
       emitted st2 = emitted st).
Proof.
  intros Hm Hw. apply String.eqb_neq in Hm. session_fields st.
  split; [|intros err]; next_call_of uart_bridge; unfold uart_bridge;
    not_bridge Hm; next_step step_Written; last_state; done.
Qed.

Lemma uart_bridge_awaits_no_ack_witness :
  ∃ st1,
    steps [Call OpUartBridge; Written None] uart_ready = Some st1 ∧
    mode (this st1) = "uart_bridge" ∧
    started (this st1) = true.
Proof.
  assert (Hm : mode (this uart_ready) ≠ "uart_bridge") by discriminate.
  destruct (uart_bridge_awaits_no_ack uart_ready Hm eq_refl)
    as ((st1 & H1 & Hmode & Hs & _) & _).
  exists st1. split; [exact H1|]. split; [exact Hmode|exact Hs].
Defined.

(** Names the parsed options and the two bytes that [setopts] computes
    from them. *)
Ltac name_options options :=
  unfold setopts_started; cbv zeta;
  generalize (baudcmd (parse_options options)); intros baud;
  generalize (uart_config (parse_options options)); intros config;
  generalize (parse_options options); intros opts.

(** Runs the head of [setopts] with the driver started. *)
Ltac setopts_head options :=
  rewrite ?(call_promise _ (setopts options)) by done; unfold setopts;
  cbn [run fresh this started negb]; name_options options.

(** X10: [setopts] with the driver started stores the parsed options in
    [settings] at once, before anything is written; it then writes the baud
    rate command, waits for [01], writes the configuration byte, waits for
    [01], emits ['ready'] and is fulfilled with [true]. *)
Theorem setopts_configures_in_two_handshakes (options : uart_options) (st : session) :
  started (this st) = true →
  idle st →
  settings (this (call (OpUartSetopts options) st)) = Some (parse_options options) ∧
  ∃ st1,
    steps [Call (OpUartSetopts options); Written None; Data [x01];
           Written None; Data [x01]] st = Some st1 ∧
    settled st1 = settled st ++ [(next_id st, Fulfilled (VBool true))] ∧
    last (emitted st1) = Some NReady ∧
    trace st1 = trace st ++
      [Sent (OArr [baudcmd (parse_options options)]); Awaited [x01];
       Sent (OArr [uart_config (parse_options options)]); Awaited [x01]] ∧
    settings (this st1) = Some (parse_options options) ∧
    waiters st1 = [] ∧ data_buffer st1 = [].
Proof.
  intros Hs Hi. idle_session st Hi.
  split.
  { setopts_head options. reflexivity. }
  erewrite steps_cons; [|apply step_Call]. setopts_head options. norm_state.
  next_step step_Written. next_data [x01] (@nil byte).
  next_step step_Written. next_data [x01] (@nil byte).
  last_state.
  split_and!; try done; [by rewrite last_snoc|by rewrite <- !app_assoc].
Qed.

Lemma setopts_configures_in_two_handshakes_witness :
  ∃ st1,
    steps [Call (OpUartSetopts no_options); Written None; Data [x01];
           Written None; Data [x01]] uart_ready = Some st1 ∧
    settled st1 = [(0, Fulfilled (VBool true))] ∧
    last (emitted st1) = Some NReady.
Proof.
  assert (Hi : idle uart_ready) by (by split_and!).
  destruct (setopts_configures_in_two_handshakes no_options uart_ready eq_refl Hi)
    as (_ & st1 & H1 & Hs & He & _).
  exists st1. split; [exact H1|]. split; [exact Hs|exact He].
Defined.





(** ** Bridge mode *)

(** X13: in bridge mode [enter_binmode], [switch_mode], [echo_rx] and
    [uart_bridge] return a promise that is already fulfilled and do nothing
    else: nothing is written and no waiter is added.  [start] writes
    nothing either: it marks the driver started, emits ['ready'] and is
    fulfilled with [true]. *)
Theorem bridge_mode_calls_write_nothing (st : session) (newmode : constants)
    (on : bool) (options : uart_options) :
  mode (this st) = "uart_bridge" →
  call OpEnterBinmode st = settle (Some (next_id st)) (Fulfilled VUndefined) (fresh st) ∧
  call (OpSwitchMode newmode) st
    = settle (Some (next_id st)) (Fulfilled (VString "uart_bridge")) (fresh st) ∧
  call (OpUartEchoRx on) st = settle (Some (next_id st)) (Fulfilled (VBool true)) (fresh st) ∧
  call OpUartBridge st = settle (Some (next_id st)) (Fulfilled (VBool true)) (fresh st) ∧
  call (OpUartStart options) st
    = settle (Some (next_id st)) (Fulfilled (VBool true))
        (notify NReady (with_this (set_started true) (fresh st))).
Proof.
  intros Hm. session_fields st. split_and!; done.
Qed.

Lemma bridge_mode_calls_write_nothing_witness :
  trace (call (OpUartStart no_options) bridge_session) = trace bridge_session ∧
  started (this (call (OpUartStart no_options) bridge_session)) = true.
Proof.
  destruct (bridge_mode_calls_write_nothing bridge_session uart_constants true no_options
              eq_refl) as (_ & _ & _ & _ & H).
  rewrite H. split; reflexivity.
Defined.

(** ** Switching mode from the console *)

(** X14: [switch_mode], called on an idle session that is neither in binary
    mode nor in bridge mode, first resets the console and acquires binary
    mode, and only then writes the mode id: the console reset is written,
    the timer of the reset elapses, ["BBIO1"] is awaited, and after it the
    mode id and the acknowledgment of the mode.  The mode passes through
    ["binmode"] and ends as the new mode. *)
Theorem switch_mode_from_console_acquires_binmode_first (newmode : constants)
    (st : session) :
  mode (this st) ≠ "binmode" →
  mode (this st) ≠ "uart_bridge" →
  idle st →
  timeouts st = [] →
  MODE_ACK newmode ≠ ""%string →
  (∃ st1,
     steps [Call (OpSwitchMode newmode); Written None; Elapsed;
            Data (bytes "BBIO1")] st = Some st1 ∧
     mode (this st1) = "binmode" ∧
     settled st1 = settled st ∧
     trace st1 = trace st ++
       [Sent (OArr (replicate 10 0x0d%Z ++ [0x23%Z])); Awaited (bytes "BBIO1");
        Sent (OArr [MODE_ID newmode])]) ∧
  (∃ st2,
     steps [Call (OpSwitchMode newmode); Written None; Elapsed;
            Data (bytes "BBIO1"); Written None;
            Data (bytes (MODE_ACK newmode))] st = Some st2 ∧
     mode (this st2) = MODE_NAME newmode ∧
     settled st2 = settled st ++ [(next_id st, Fulfilled (VString (MODE_NAME newmode)))] ∧
     trace st2 = trace st ++
       [Sent (OArr (replicate 10 0x0d%Z ++ [0x23%Z])); Awaited (bytes "BBIO1");
        Sent (OArr [MODE_ID newmode]); Awaited (bytes (MODE_ACK newmode))] ∧
     waiters st2 = [] ∧ writes st2 = [] ∧ timeouts st2 = []).
Proof.
  intros Hb Hu Hi Ht Hack.
  apply String.eqb_neq in Hb, Hu.
  destruct newmode as [id name ack].
  idle_session st Hi.
  apply bytes_nonempty in Hack.
  split; next_call_of (switch_mode {| MODE_ID := id; MODE_NAME := name; MODE_ACK := ack |});
    unfold switch_mode; cbn [run fresh this mode]; rewrite Hu, Hb;
    cbn [negb MODE_ID MODE_NAME MODE_ACK]; norm_state;
    next_step step_Written;
    (erewrite steps_cons; [|eapply step_Elapsed; simpl; reflexivity]);
    norm_state; rewrite Hu, Hb; norm_state;
    next_data (bytes "BBIO1") (@nil byte).
  - last_state. split_and!; try done. by rewrite <- !app_assoc.
  - next_step step_Written. next_data (bytes ack) (@nil byte).
    2: by rewrite app_nil_r.
    last_state. split_and!; try done. by rewrite <- !app_assoc.
Qed.

Lemma switch_mode_from_console_acquires_binmode_first_witness :
  ∃ st2,
    steps [Call (OpSwitchMode uart_constants); Written None; Elapsed;
           Data (bytes "BBIO1"); Written None; Data (bytes "ART1")] init = Some st2 ∧
    mode (this st2) = "uart" ∧
    settled st2 = [(0, Fulfilled (VString "uart"))].
Proof.
  assert (Hb : mode (this init) ≠ "binmode") by discriminate.
  assert (Hu : mode (this init) ≠ "uart_bridge") by discriminate.
  assert (Hi : idle init) by (by split_and!).
  assert (Hack : MODE_ACK uart_constants ≠ ""%string) by discriminate.
  destruct (switch_mode_from_console_acquires_binmode_first uart_constants init
              Hb Hu Hi eq_refl Hack) as (_ & st2 & H2 & Hm & Hs & _).
  exists st2. split; [exact H2|]. split; [exact Hm|exact Hs].
Defined.

(** ** The chunks of [Uart.prototype.write] *)

Lemma substring_empty o n : String.substring o n "" = ""%string.
Proof. by destruct o, n. Qed.

Lemma substring_length s o n :
  String.length (String.substring o n s) = Nat.min n (String.length s - o).
Proof.
  revert o n. induction s as [|c s IH]; intros o n.
  - rewrite substring_empty. simpl. lia.
  - destruct o as [|o], n as [|n]; cbn [String.substring String.length];
      rewrite ?IH; lia.
Qed.

Lemma substring_append s o a b :
  (String.substring o a s ++ String.substring (o + a) b s)%string
  = String.substring o (a + b) s.
Proof.
  revert o a. induction s as [|c s IH]; intros o a.
  - by rewrite !substring_empty.
  - destruct o as [|o], a as [|a]; simpl.
    + done.
    + change (String c (String.substring 0 a s +:+ String.substring (0 + a) b s)
              = String c (String.substring 0 (a + b) s)).
      f_equal. apply (IH 0 a).
    + rewrite Nat.add_0_r. pose proof (IH o 0) as H.
      by rewrite Nat.add_0_r in H.
    + apply (IH o (S a)).
Qed.

Lemma substring_all s n : String.length s ≤ n → String.substring 0 n s = s.
Proof.
  revert n. induction s as [|c s IH]; intros n Hn.
  - apply substring_empty.
  - destruct n as [|n]; simpl in *; [lia|]. f_equal. apply IH. lia.
Qed.

Lemma concat_cons_empty_sep (x : string) (xs : list string) :
  String.concat "" (x :: xs) = (x ++ String.concat "" xs)%string.
Proof.
  destruct xs as [|y ys]; simpl; [|done].
  induction x as [|c x IH]; [done|].
  change (String c x = String c (x +:+ "")). by f_equal.
Qed.

Lemma substring_zero s o : String.substring o 0 s = ""%string.
Proof.
  revert o. induction s as [|c s IH]; intros o; [apply substring_empty|].
  destruct o; [done|apply IH].
Qed.

Lemma chunk_loop_concat n o str size :
  String.concat "" (chunk_loop n o str size) = String.substring o (n * size) str.
Proof.
  revert o. induction n as [|n IH]; intros o.
  - simpl. by rewrite substring_zero.
  - cbn [chunk_loop]. rewrite concat_cons_empty_sep, IH, substring_append.
    by rewrite Nat.mul_succ_l, (Nat.add_comm (n * size)).
Qed.

Lemma chunk_loop_length n o str size : length (chunk_loop n o str size) = n.
Proof. revert o. induction n as [|n IH]; intros o; simpl; by rewrite ?IH. Qed.

Lemma chunk_loop_sizes n o str size :
  0 < size →
  (0 < n → o + (n - 1) * size < String.length str) →
  Forall (λ c, 1 ≤ String.length c ≤ size) (chunk_loop n o str size).
Proof.
  intros Hsize. revert o. induction n as [|n IH]; intros o Hn; simpl.
  - constructor.
  - constructor.
    + rewrite substring_length. specialize (Hn ltac:(lia)). lia.
    + apply IH. intros Hpos. specialize (Hn ltac:(lia)).
      replace (S n - 1) with (S (n - 1)) in Hn by lia. simpl in Hn. lia.
Qed.

Lemma ceil_div_bounds a b :
  0 < b →
  a ≤ ceil_div a b * b ∧ (0 < ceil_div a b → (ceil_div a b - 1) * b < a).
Proof.
  intros Hb. unfold ceil_div.
  pose proof (Nat.div_mod_eq a b) as Hdm.
  pose proof (Nat.mod_upper_bound a b ltac:(lia)) as Hlt.
  destruct (a mod b =? 0) eqn:E.
  - apply Nat.eqb_eq in E. split; [nia|]. intros Hpos. nia.
  - apply Nat.eqb_neq in E. split; [nia|]. intros _. simpl. nia.
Qed.

(** The chunks that [write] makes: pieces of 1 to 16 characters that give
    the string back. *)
Lemma chunks_of_16 str :
  String.concat "" (chunkSubstr str 16) = str ∧
  Forall (λ c, 1 ≤ String.length c ≤ 16) (chunkSubstr str 16).
Proof.
  unfold chunkSubstr. cbv zeta.
  destruct (ceil_div_bounds (String.length str) 16 ltac:(lia)) as [Hup Hlow].
  split.
  - rewrite chunk_loop_concat. by apply substring_all.
  - apply chunk_loop_sizes; [lia|]. intros Hpos. specialize (Hlow Hpos). lia.
Qed.

(** X15: [chunkSubstr] cuts the string into consecutive pieces: joined
    together the chunks give the string back, there are [ceil(length / size)]
    of them, and each has at least one character and [size] at most.  So
    [write] never hands [write_block] an empty block or one of more than 16
    bytes. *)
Theorem chunkSubstr_partitions (str : string) (size : nat) :
  0 < size →
  String.concat "" (chunkSubstr str size) = str ∧
  length (chunkSubstr str size) = ceil_div (String.length str) size ∧
  Forall (λ c, 1 ≤ String.length c ≤ size) (chunkSubstr str size).
Proof.
  intros Hsize. unfold chunkSubstr. cbv zeta.
  destruct (ceil_div_bounds (String.length str) size Hsize) as [Hup Hlow].
  split_and!.
  - rewrite chunk_loop_concat. by apply substring_all.
  - apply chunk_loop_length.
  - apply chunk_loop_sizes; [done|]. intros Hpos. specialize (Hlow Hpos). lia.
Qed.

Lemma chunkSubstr_partitions_witness :
  String.concat "" (chunkSubstr "0123456789abcdefghij" 16) = "0123456789abcdefghij"%string ∧
  length (chunkSubstr "0123456789abcdefghij" 16) = 2.
Proof.
  assert (H16 : 0 < 16) by lia.
  destruct (chunkSubstr_partitions "0123456789abcdefghij" 16 H16) as (Hc & Hl & _).
  split; [exact Hc|exact Hl].
Defined.

(** ** The bytes of [setopts] *)

Lemma int32_testbit z i : (0 ≤ i < 32)%Z → Z.testbit (int32 z) i = Z.testbit z i.
Proof.
  intros Hi. unfold int32.
  rewrite <- (Z.mod_pow2_bits_low _ 32 i) by lia.
  rewrite <- (Z.mod_pow2_bits_low z 32 i) by lia.
  f_equal.
  rewrite Zminus_mod, Z.mod_mod, <- Zminus_mod by lia.
  f_equal. lia.
Qed.

Lemma bor_testbit a b i :
  (0 ≤ i < 32)%Z → Z.testbit (bor a b) i = Z.testbit a i || Z.testbit b i.
Proof.
  intros Hi. unfold bor. by rewrite int32_testbit, Z.lor_spec, !int32_testbit.
Qed.

Lemma shl_testbit a n i :
  (0 ≤ n < 32)%Z → (0 ≤ i < 32)%Z →
  Z.testbit (shl a n) i = if (i <? n)%Z then false else Z.testbit a (i - n).
Proof.
  intros Hn Hi. unfold shl.
  assert (Hland : Z.land n 31 = n).
  { change 31%Z with (Z.ones 5). rewrite Z.land_ones by lia.
    apply Z.mod_small. simpl. lia. }
  rewrite Hland, int32_testbit by done.
  destruct (Z.ltb_spec i n).
  - apply Z.shiftl_spec_low. lia.
  - rewrite Z.shiftl_spec by lia. apply int32_testbit. lia.
Qed.

Lemma or_num_nonzero o d : d ≠ 0%Z → or_num o d ≠ 0%Z.
Proof.
  intros Hd. unfold or_num. destruct o as [z|]; [|done].
  destruct (Z.eqb_spec z 0); done.
Qed.

(** X16: whatever the options, the configuration byte that [setopts] writes
    has bit 0 clear: [idle_polarity: 0] is falsy and is replaced by the
    default 1, so the idle level 0 cannot be selected. *)
Theorem uart_config_idle_bit_never_set (options : uart_options) :
  Z.testbit (uart_config (parse_options options)) 0 = false.
Proof.
  unfold uart_config. cbv zeta.
  assert (Hz : (s_idle_polarity (parse_options options) =? 0)%Z = false).
  { apply Z.eqb_neq. simpl. by apply or_num_nonzero. }
  rewrite Hz, !bor_testbit, !shl_testbit by lia. done.
Qed.

(** X17: asking for the open-drain output, [pin_output: 0], configures the
    3.3V output: 0 is falsy and is replaced by the default 1, and bit 4 of
    the configuration byte is set. *)
Theorem uart_config_output_never_hiz (options : uart_options) :
  pin_output options = Some 0%Z →
  s_pin_output (parse_options options) = 1%Z ∧
  Z.testbit (uart_config (parse_options options)) 4 = true.
Proof.
  intros Hp. split; [simpl; by rewrite Hp|].
  unfold uart_config. cbv zeta.
  rewrite !bor_testbit, !shl_testbit by lia.
  simpl s_pin_output. rewrite Hp. done.
Qed.

Lemma uart_config_output_never_hiz_witness :
  Z.testbit (uart_config (parse_options
    {| baudrate := None; pin_output := Some 0%Z; data_bits := None;
       parity_bit := None; stop_bits := None; idle_polarity := None |})) 4 = true.
Proof.
  exact (proj2 (uart_config_output_never_hiz
    {| baudrate := None; pin_output := Some 0%Z; data_bits := None;
       parity_bit := None; stop_bits := None; idle_polarity := None |} eq_refl)).
Defined.

(** X18: the baud rate command is always one of the ten codes of the table:
    the code of the requested rate when the table has it, and otherwise the
    code [0x64] of 9600 baud.  No other byte is written as the rate. *)
Theorem baudcmd_is_a_table_code (opts : uart_settings) :
  (0x60 ≤ baudcmd opts ≤ 0x69)%Z ∧
  match bauds !! s_baudrate opts with
  | Some code => baudcmd opts = code
  | None => baudcmd opts = 0x64%Z
  end.
Proof.
  unfold baudcmd.
  destruct (bauds !! s_baudrate opts) as [code|] eqn:E; simpl.
  - split; [|done].
    apply elem_of_list_to_map_2 in E.
    repeat (apply elem_of_cons in E as [E|E]; [injection E as _ ->; lia|]).
    by apply elem_of_nil in E.
  - split; [|by vm_compute]. vm_compute. split; discriminate.
Qed.

(** ** Writing to the UART *)

Lemma acks_replicate n test : acks n test = test ++ replicate n 0x01%Z.
Proof.
  revert test. induction n as [|n IH]; intros test; simpl.
  - by rewrite app_nil_r.
  - rewrite IH, <- app_assoc. done.
Qed.

Lemma call_promise_at op p st :
  invoke op (this st) = Promise p →
  call op st = run (Some (next_id st)) p (fresh st).
Proof. intros H. unfold call. cbv zeta. simpl. by rewrite H. Qed.

(** [write_block] past its two guards. *)
Lemma write_block_started buffer this :
  block_length buffer ≤ 16 →
  started this = true →
  write_block buffer this
  = Promise
      (bind (bind (bind (write (ONum (0x0f + Z.of_nat (block_length buffer))))
        (λ _, expect (ENum 0x1)))
        (λ _, write (block_data buffer)))
        (λ _, expect (EArr (replicate (block_length buffer) 0x01%Z)))).
Proof.
  intros Hlen Hs. unfold write_block. cbv zeta.
  destruct (Nat.ltb_spec 16 (block_length buffer)); [lia|].
  rewrite Hs, acks_replicate. simpl negb. cbv iota.
  replace (0x10 + Z.of_nat (block_length buffer) - 1)%Z
    with (0x0f + Z.of_nat (block_length buffer))%Z by lia.
  done.
Qed.

(** X19: [write_block] with the driver started, for every block of 1 to 16
    bytes: the length byte [0x0f + n] is written and [01] awaited, then the
    block itself is written and [n] bytes [01] are awaited; the call is
    fulfilled when they have arrived. *)
Theorem write_block_handshake (buffer : block) (st : session) :
  started (this st) = true →
  idle st →
  1 ≤ block_length buffer ≤ 16 →
  ∃ st1,
    steps [Call (OpUartWriteBlock buffer); Written None; Data [x01];
           Written None; Data (replicate (block_length buffer) x01)] st = Some st1 ∧
    settled st1 = settled st ++
      [(next_id st, Fulfilled (VBuffer (replicate (block_length buffer) x01)))] ∧
    trace st1 = trace st ++
      [Sent (OArr [0x0f + Z.of_nat (block_length buffer)]%Z); Awaited [x01];
       Sent (block_data buffer); Awaited (replicate (block_length buffer) x01)] ∧
    waiters st1 = [] ∧ data_buffer st1 = [].
Proof.
  intros Hs Hi Hlen. idle_session st Hi.
  erewrite steps_cons; [|apply step_Call].
  erewrite call_promise_at; [|by apply write_block_started; [lia|]].
  assert (Htest : byte_of_Z <$> replicate (block_length buffer) 0x01%Z
                  = replicate (block_length buffer) x01).
  { by rewrite fmap_replicate. }
  assert (Hne : replicate (block_length buffer) x01 ≠ []).
  { destruct (block_length buffer); [lia|done]. }
  assert (Htx : tx_of (block_data buffer) = block_data buffer) by (by destruct buffer).
  revert Htest Hne Htx.
  generalize (replicate (block_length buffer) x01); intros acked.
  generalize (replicate (block_length buffer) 0x01%Z); intros test.
  generalize (0x0f + Z.of_nat (block_length buffer))%Z; intros lenbyte.
  generalize (block_data buffer); intros tx.
  intros Htest Hne Htx. subst acked. norm_state.
  next_step step_Written. next_data [x01] (@nil byte).
  next_step step_Written. next_data (byte_of_Z <$> test) (@nil byte).
  2: by rewrite app_nil_r.
  last_state. rewrite Htx. split_and!; try done. by rewrite <- !app_assoc.
Qed.

Lemma write_block_handshake_witness :
  ∃ st1,
    steps [Call (OpUartWriteBlock (BStr "AT")); Written None; Data [x01];
           Written None; Data [x01; x01]] uart_ready = Some st1 ∧
    settled st1 = [(0, Fulfilled (VBuffer [x01; x01]))].
Proof.
  assert (Hi : idle uart_ready) by (by split_and!).
  assert (Hlen : 1 ≤ block_length (BStr "AT") ≤ 16) by (simpl; lia).
  destruct (write_block_handshake (BStr "AT") uart_ready eq_refl Hi Hlen)
    as (st1 & H1 & Hs & _).
  exists st1. split; [exact H1|exact Hs].
Defined.

(** X20: the guards of [write_block] let an empty block through.  With the
    driver started, its length byte is [0x10 + 0 - 1 = 0x0f], the very byte
    that [uart_bridge] writes to start the bridge. *)
Theorem empty_block_writes_the_bridge_command (buffer : block) (st : session) :
  block_length buffer = 0 →
  started (this st) = true →
  mode (this st) ≠ "uart_bridge" →
  trace (call (OpUartWriteBlock buffer) st) = trace st ++ [Sent (OArr [0x0f%Z])] ∧
  trace (call OpUartBridge st) = trace st ++ [Sent (OArr [0x0f%Z])].
Proof.
  intros Hlen Hs Hm. apply String.eqb_neq in Hm.
  split.
  - erewrite call_promise_at; [|apply write_block_started; [lia|done]].
    rewrite Hlen. done.
  - rewrite (call_promise _ uart_bridge) by done. unfold uart_bridge.
    cbn [run fresh this]. by rewrite Hm.
Qed.

Lemma empty_block_writes_the_bridge_command_witness :
  trace (call (OpUartWriteBlock (BStr "")) uart_ready) = [Sent (OArr [0x0f%Z])] ∧
  trace (call OpUartBridge uart_ready) = [Sent (OArr [0x0f%Z])].
Proof.
  assert (Hm : mode (this uart_ready) ≠ "uart_bridge") by discriminate.
  exact (empty_block_writes_the_bridge_command (BStr "") uart_ready eq_refl eq_refl Hm).
Defined.

(** X21: in bridge mode [Uart.prototype.write] hands the whole string to
    the port in one write, whatever its length: it is not cut into blocks,
    no length byte is written and no acknowledgment is awaited, and the
    driver need not be started.  The call is settled by the callback of
    that write. *)
Theorem uart_write_in_bridge_is_raw (buffer : string) (st : session) :
  mode (this st) = "uart_bridge" →
  writes st = [] →
  (∃ st1,
     steps [Call (OpUartWrite buffer); Written None] st = Some st1 ∧
     trace st1 = trace st ++ [Sent (OStr buffer)] ∧
     settled st1 = settled st ++ [(next_id st, Fulfilled (VBool true))] ∧
     waiters st1 = waiters st ∧ writes st1 = []) ∧
  (∀ e,
     ∃ st2,
       steps [Call (OpUartWrite buffer); Written (Some e)] st = Some st2 ∧
       settled st2 = settled st ++ [(next_id st, Rejected e)]).
Proof.
  intros Hm Hw. session_fields st.
  split; [|intros err]; next_call; next_step step_Written; last_state; done.
Qed.

Lemma uart_write_in_bridge_is_raw_witness :
  ∃ st1,
    steps [Call (OpUartWrite "0123456789abcdefghij"); Written None] bridge_session
      = Some st1 ∧
    trace st1 = trace bridge_session ++ [Sent (OStr "0123456789abcdefghij")].
Proof.
  destruct (uart_write_in_bridge_is_raw "0123456789abcdefghij" bridge_session
              eq_refl eq_refl) as ((st1 & H1 & Ht & _) & _).
  exists st1. split; [exact H1|exact Ht].
Defined.

Lemma run_immediate pid p st v :
  immediate (this st) p = Some v → run pid p st = settle pid (Fulfilled v) st.
Proof.
  induction p as [v'| | | | | | |k IH| |]; simpl; try done.
  - by intros [= ->].
  - apply IH.
Qed.

Lemma immediate_bind this p f v :
  immediate this p = Some v → immediate this (bind p f) = immediate this (f v).
Proof.
  induction p as [v'| | | | | | |k IH| |]; simpl; try done.
  - by intros [= ->].
  - apply IH.
Qed.

(** The chain of [uart.write] over its chunks when the driver is not
    started: every [write_block] returns the error at once. *)
Lemma write_chunks_not_started this chunks p v :
  started this = false →
  Forall (λ c, 1 ≤ String.length c ≤ 16) chunks →
  immediate this p = Some v →
  immediate this
    (foldl (λ p chunk, bind p (λ _, Get (λ this, then_return (write_block (BStr chunk) this))))
       p chunks)
  = Some (match chunks with
          | [] => v
          | _ => VError "Uart must be started before writing"
          end).
Proof.
  intros Hs Hall. revert p v.
  induction Hall as [|c cs Hc Hcs IH]; intros p v Hp; simpl; [done|].
  rewrite (IH _ (VError "Uart must be started before writing")).
  - by destruct cs.
  - rewrite (immediate_bind _ _ _ v) by done. simpl.
    unfold write_block. cbv zeta. simpl block_length.
    destruct (Nat.ltb_spec 16 (String.length c)); [lia|].
    by rewrite Hs.
Qed.

(** X22: with the driver not started and outside bridge mode,
    [Uart.prototype.write] of any string that is not empty writes nothing
    and suspends nowhere: the call is fulfilled at once, and the value it is
    fulfilled with is the error object of [write_block]. *)
Theorem uart_write_not_started_fulfils_with_error (buffer : string) (st : session) :
  mode (this st) ≠ "uart_bridge" →
  started (this st) = false →
  buffer ≠ ""%string →
  call (OpUartWrite buffer) st
  = settle (Some (next_id st))
      (Fulfilled (VError "Uart must be started before writing")) (fresh st).
Proof.
  intros Hm Hs Hne. apply String.eqb_neq in Hm.
  rewrite (call_promise _ (uart_write buffer)) by done.
  apply run_immediate. unfold uart_write. simpl. rewrite Hm.
  destruct (chunks_of_16 buffer) as (Hcat & Hall).
  rewrite (write_chunks_not_started _ _ _ (VBool true)); try done.
  destruct (chunkSubstr buffer 16) as [|c cs] eqn:E; [|done].
  simpl in Hcat. congruence.
Qed.

Lemma uart_write_not_started_fulfils_with_error_witness :
  settled (call (OpUartWrite "0123456789abcdefghij") binmode_session)
  = [(0, Fulfilled (VError "Uart must be started before writing"))] ∧
  trace (call (OpUartWrite "0123456789abcdefghij") binmode_session) = [].
Proof.
  assert (Hm : mode (this binmode_session) ≠ "uart_bridge") by discriminate.
  assert (Hne : "0123456789abcdefghij" ≠ ""%string) by discriminate.
  rewrite (uart_write_not_started_fulfils_with_error "0123456789abcdefghij"
             binmode_session Hm eq_refl Hne).
  split; reflexivity.
Defined.

(** ** What the waiters see of the inbound stream *)

(** A chunk that arrives for a single waiter with the empty pattern. *)
Lemma step_Data_empty chunk w st :
  waiters st = [w] →
  w_data w = CBuffer [] →
  step (Data chunk) st
  = Some (run (w_pid w) (w_then w (data_buffer st ++ chunk))
            (with_matcher [] [] (emit (NReceive chunk) st))).
Proof.
  intros Hw Hd. unfold step, on_data. cbv zeta.
  rewrite !emit_waiters, emit_data_buffer, Hw. simpl.
  rewrite Hd. unfold waiter. simpl. by rewrite drop_all.
Qed.

(** X23: a waiter for the empty pattern ([expect('')], [expect([])])
    resolves with the next lump of data: when the next chunk arrives it
    takes everything that is in the buffer, the bytes left there before
    together with the chunk, and leaves the buffer empty. *)
Theorem empty_pattern_takes_the_next_lump (data : expected) (chunk : list byte)
    (st : session) :
  Buffer_from data = [] →
  waiters st = [] →
  ∃ st',
    steps [Call (OpExpect data); Data chunk] st = Some st' ∧
    settled st' = settled st ++
      [(next_id st, Fulfilled (VBuffer (data_buffer st ++ chunk)))] ∧
    data_buffer st' = [] ∧
    waiters st' = [].
Proof.
  intros Hd Hw. session_fields st.
  next_call_of (expect data). unfold expect. cbn [run]. rewrite Hd. norm_state.
  erewrite steps_cons; [|by eapply step_Data_empty]. norm_state.
  last_state. done.
Qed.

Lemma empty_pattern_takes_the_next_lump_witness :
  ∃ st',
    steps [Call (OpExpect (EStr "")); Data (bytes "hello")] init = Some st' ∧
    settled st' = [(0, Fulfilled (VBuffer (bytes "hello")))].
Proof.
  destruct (empty_pattern_takes_the_next_lump (EStr "") (bytes "hello") init
              eq_refl eq_refl) as (st' & H & Hs & _).
  exists st'. split; [exact H|exact Hs].
Defined.

(** X24: [expect] does not look at the buffer when it is called.  Bytes
    that arrived behind an earlier match stay in the buffer, and a waiter
    registered afterwards for exactly these bytes stays pending; it is
    resolved when the next chunk arrives, whatever that chunk is, and the
    chunk is then what the buffer holds. *)
Theorem buffered_bytes_are_matched_on_the_next_chunk (d1 d2 : expected)
    (chunk : list byte) (st : session) :
  Buffer_from d1 ≠ [] →
  Buffer_from d2 ≠ [] →
  idle st →
  (∃ st1,
     steps [Call (OpExpect d1); Data (Buffer_from d1 ++ Buffer_from d2);
            Call (OpExpect d2)] st = Some st1 ∧
     settled st1 = settled st ++ [(next_id st, Fulfilled (VBuffer (Buffer_from d1)))] ∧
     data_buffer st1 = Buffer_from d2 ∧
     length (waiters st1) = 1) ∧
  (∃ st2,
     steps [Call (OpExpect d1); Data (Buffer_from d1 ++ Buffer_from d2);
            Call (OpExpect d2); Data chunk] st = Some st2 ∧
     settled st2 = settled st ++
       [(next_id st, Fulfilled (VBuffer (Buffer_from d1)));
        (S (next_id st), Fulfilled (VBuffer (Buffer_from d2)))] ∧
     data_buffer st2 = chunk ∧
     waiters st2 = []).
Proof.
  intros H1 H2 Hi. idle_session st Hi.
  split; next_call_of (expect d1); unfold expect; cbn [run];
    (erewrite steps_cons;
       [|by eapply (step_Data_one _ _ (Buffer_from d1) (Buffer_from d2))]);
    next_call_of (expect d2); unfold expect; cbn [run];
    revert H1 H2; generalize (Buffer_from d1), (Buffer_from d2); intros p1 p2 H1 H2;
    norm_state.
  - last_state. done.
  - next_data p2 chunk. last_state. split_and!; try done. by rewrite <- app_assoc.
Qed.

Lemma buffered_bytes_are_matched_on_the_next_chunk_witness :
  ∃ st2,
    steps [Call (OpExpect (EStr "a")); Data (bytes "ab"); Call (OpExpect (EStr "b"));
           Data (bytes "c")] init = Some st2 ∧
    settled st2 = [(0, Fulfilled (VBuffer (bytes "a"))); (1, Fulfilled (VBuffer (bytes "b")))].
Proof.
  assert (H1 : Buffer_from (EStr "a") ≠ []) by discriminate.
  assert (H2 : Buffer_from (EStr "b") ≠ []) by discriminate.
  assert (Hi : idle init) by (by split_and!).
  destruct (buffered_bytes_are_matched_on_the_next_chunk (EStr "a") (EStr "b")
              (bytes "c") init H1 H2 Hi) as (_ & st2 & H & Hs & _).
  exists st2. split; [exact H|exact Hs].
Defined.

(** ** The events of the UART driver *)

Lemma settle_emitted pid o st : emitted (settle pid o st) = emitted st.
Proof. by destruct pid. Qed.

(** A chain only adds to the events emitted so far. *)
Lemma run_emitted pid p st : ∃ rest, emitted (run pid p st) = emitted st ++ rest.
Proof.
  revert st.
  induction p as [v|e|tx k IH|d k IH|k IH|r IHr k IH|tid k IH|k IH|f k IH|n k IH];
    intros st; simpl.
  - exists []. by rewrite settle_emitted, app_nil_r.
  - exists []. by rewrite settle_emitted, app_nil_r.
  - exists []. by rewrite app_nil_r.
  - exists []. by rewrite app_nil_r.
  - exists []. by rewrite app_nil_r.
  - destruct (IH (next_id st) (with_intervals (insert (next_id st)
                {| i_count := 0; i_pid := pid; i_reject := r |}) (fresh st))) as [rest Hr].
    exists rest. by rewrite Hr.
  - destruct (IH (with_intervals (delete tid) st)) as [rest Hr].
    exists rest. by rewrite Hr.
  - apply IH.
  - destruct (IH (with_this f st)) as [rest Hr]. exists rest. by rewrite Hr.
  - destruct (IH (emit n st)) as [rest Hr]. rewrite Hr, emit_emitted.
    eexists. by rewrite <- app_assoc.
Qed.

Lemma resume_all_emitted fired st :
  ∃ rest, emitted (foldl resume st fired) = emitted st ++ rest.
Proof.
  revert st. induction fired as [|f fired IH]; intros st; simpl.
  - exists []. by rewrite app_nil_r.
  - destruct (IH (resume st f)) as [rest Hr]. rewrite Hr.
    destruct (run_emitted (w_pid f.1) (w_then f.1 f.2) st) as [rest' Hr'].
    unfold resume. rewrite Hr'. eexists. by rewrite <- app_assoc.
Qed.

(** X25: every inbound chunk is emitted as ['receive'], and while the UART
    driver is started it is passed on as ['data'] of the driver right after,
    before any waiter is resumed and whether or not a waiter takes the bytes:
    the acknowledgment bytes of the protocol reach the ['data'] listeners
    like everything else. *)
Theorem inbound_chunk_is_passed_on_while_started (chunk : list byte)
    (st st' : session) :
  step (Data chunk) st = Some st' →
  ∃ rest,
    emitted st' = emitted st ++ NReceive chunk ::
      (if started (this st) then [NUartData chunk] else []) ++ rest.
Proof.
  unfold step, on_data. cbv zeta. intros H.
  assert (He := emit_emitted (NReceive chunk) st). cbv beta iota in He.
  destruct (0 <? length (waiters (emit (NReceive chunk) st))).
  - destruct (run_waiters _ _ _ _) as [[[ws buf] fired]|]; [|done].
    injection H as <-.
    destruct (resume_all_emitted fired
                (with_matcher ws buf (emit (NReceive chunk) st))) as [rest Hr].
    exists rest. rewrite Hr. simpl. rewrite He. by rewrite <- app_assoc.
  - injection H as <-. exists []. by rewrite He, app_nil_r.
Qed.

Lemma inbound_chunk_is_passed_on_while_started_witness :
  ∃ rest,
    emitted (default init
               (steps [Call (OpUartEchoRx true); Written None; Data [x01]] uart_ready))
    = NReceive [x01] :: NUartData [x01] :: rest.
Proof.
  assert (H : step (Data [x01])
                (default init (steps [Call (OpUartEchoRx true); Written None] uart_ready))
              = Some (default init
                  (steps [Call (OpUartEchoRx true); Written None; Data [x01]] uart_ready)))
    by (vm_compute; reflexivity).
  destruct (inbound_chunk_is_passed_on_while_started _ _ _ H) as [rest Hr].
  exists rest. exact Hr.
Defined.

(** X26: for settings within their ranges the configuration byte of
    [setopts] packs the fields side by side, as [100wxxyz]: [w] the output
    type, [xx] 3 for 9 data bits and otherwise the index of the parity
    letter in ["NEO"], [y] set for 2 stop bits, [z] set for idle level 0.
    The fields do not overlap, so the bitwise or is their sum. *)
Theorem uart_config_packs_the_fields (opts : uart_settings) :
  s_pin_output opts = 0%Z ∨ s_pin_output opts = 1%Z →
  s_parity_bit opts = "N"%string ∨ s_parity_bit opts = "E"%string
    ∨ s_parity_bit opts = "O"%string →
  uart_config opts
  = (0x80 + 16 * s_pin_output opts
     + 4 * (if s_data_bits opts =? 9 then 3 else indexOf "NEO" (s_parity_bit opts))
     + 2 * (if s_stop_bits opts =? 2 then 1 else 0)
     + (if s_idle_polarity opts =? 0 then 1 else 0))%Z.
Proof.
  destruct opts as [baud pin bits parity stop idle]. simpl.
  intros Hpin Hpar. unfold uart_config. cbv zeta. simpl.
  destruct (bits =? 9)%Z, (stop =? 2)%Z, (idle =? 0)%Z;
    destruct Hpin as [-> | ->]; destruct Hpar as [-> | [-> | ->]];
    vm_compute; reflexivity.
Qed.

Lemma uart_config_packs_the_fields_witness :
  uart_config uart_defaults = 0x90%Z.
Proof.
  assert (Hpin : s_pin_output uart_defaults = 0%Z ∨ s_pin_output uart_defaults = 1%Z)
    by (by right).
  assert (Hpar : s_parity_bit uart_defaults = "N"%string
                 ∨ s_parity_bit uart_defaults = "E"%string
                 ∨ s_parity_bit uart_defaults = "O"%string) by (by left).
  rewrite (uart_config_packs_the_fields uart_defaults Hpin Hpar). reflexivity.
Defined.

(** ** The formatter of the logger *)

Lemma is_control_replaced c : is_control (if is_control c then "."%char else c) = false.
Proof. by destruct (is_control c) eqn:E. Qed.

(** X27: [format] of a string keeps its length, leaves no character of the
    class it replaces, returns unchanged a string that has none, and so
    changes nothing when it is applied a second time. *)
Theorem format_leaves_no_control_character (item : string) :
  String.length (format item) = String.length item ∧
  Forall (λ c, is_control c = false) (String.list_ascii_of_string (format item)) ∧
  (Forall (λ c, is_control c = false) (String.list_ascii_of_string item) →
   format item = item) ∧
  format (format item) = format item.
Proof.
  induction item as [|c item (IHlen & IHall & IHid & IHtwice)]; simpl.
  - split_and!; done.
  - split_and!.
    + by rewrite IHlen.
    + constructor; [apply is_control_replaced|done].
    + intros Hall. apply Forall_cons in Hall as [Hc Hall].
      rewrite Hc. f_equal. by apply IHid.
    + rewrite is_control_replaced. by rewrite IHtwice.
Qed.

Lemma format_leaves_no_control_character_witness :
  format "BBIO1" = "BBIO1"%string.
Proof.
  destruct (format_leaves_no_control_character "BBIO1") as (_ & _ & H & _).
  apply H. repeat constructor.
Defined.

(** ** The callback version *)

(** X28: the configuration byte of [config_periph] in [index.js] is
    [0100wxyz]: each flag has its own bit (power bit 3, pullups bit 2, aux
    bit 1, cs bit 0), bit 6 is set and nothing else, so the byte lies in
    [0x40..0x4f] and the four flags can be read back from it. *)
Theorem index_config_code_reads_back (power pullups aux cs : bool) :
  Z.testbit (index_config_code power pullups aux cs) 3 = power ∧
  Z.testbit (index_config_code power pullups aux cs) 2 = pullups ∧
  Z.testbit (index_config_code power pullups aux cs) 1 = aux ∧
  Z.testbit (index_config_code power pullups aux cs) 0 = cs ∧
  Z.land (index_config_code power pullups aux cs) 0xf0 = 0x40%Z ∧
  (0x40 ≤ index_config_code power pullups aux cs ≤ 0x4f)%Z.
Proof. destruct power, pullups, aux, cs; vm_compute; split_and!; done. Qed.

(** X29: for a pattern of at least one byte the waiter of [expect] in
    [lib/buspirate.js] decides as the waiter of [wait_for_data] in
    [index.js] did: both leave the same bytes, and one resolves exactly
    when the other calls back.  They differ on the empty pattern: the
    earlier waiter calls back for any chunk and takes nothing of it, the
    later one takes the whole buffer. *)
Theorem waiter_agrees_with_index_waiter (data recv : list byte) :
  data ≠ [] →
  match waiter (CBuffer data) recv with
  | Keep buf => index_waiter data recv = Unmatched buf
  | Found v buf => v = data ∧ index_waiter data recv = Matched buf
  | Undefined => False
  end ∧
  index_waiter [] recv = Matched recv ∧
  waiter (CBuffer []) recv = Found recv [].
Proof.
  intros Hne. unfold waiter, index_waiter.
  split_and!.
  - destruct (length recv <? length data); [done|].
    destruct (Nat.eqb_spec (length data) 0) as [H0|_].
    { by destruct data. }
    by destruct (differs (length data) data recv).
  - simpl. by rewrite drop_0.
  - simpl. by rewrite drop_all.
Qed.

Lemma waiter_agrees_with_index_waiter_witness :
  index_waiter (bytes "ART1") (bytes "ART1x") = Matched (bytes "x") ∧
  index_waiter [] (bytes "x") = Matched (bytes "x") ∧
  waiter (CBuffer []) (bytes "x") = Found (bytes "x") [].
Proof.
  assert (Hne : bytes "ART1" ≠ []) by discriminate.
  destruct (waiter_agrees_with_index_waiter (bytes "ART1") (bytes "ART1x") Hne)
    as ((_ & H) & _).
  destruct (waiter_agrees_with_index_waiter (bytes "ART1") (bytes "x") Hne)
    as (_ & H0 & H1).
  split; [exact H|]. split; [exact H0|exact H1].
Defined.
